(** * Hawk-Eye 3D visualizer: motion-data normalisation and biomechanics

  A shallow embedding of the numerical core of the viewer:
  - [src/lib/parseHawkEye.ts]: role normalisation, frame building, track
    parsing;
  - [src/components/HawkEyeVisualizer3D.tsx]: angle wrapping, release
    time extraction, foot-strike / ball-release / handedness detection,
    the display smoother, the per-frame kinematics and the biomechanics
    series.

  Modelling conventions.
  - A finite JavaScript number is a rational ([Q]); a number that can be
    [NaN] or an infinity (a frame time, a date, anything computed from
    them) is a [jsnum].  Signed zeros are not modelled.
  - Where computed numbers are only stored or reported (track builder,
    angle helpers, display smoother, per-frame kinematics, biomechanics
    series), arithmetic is exact: rounding and overflow are not
    modelled.
  - Where computed numbers are compared to choose a frame or a hand
    (event detection, hand detection), every operation and every
    decimal literal goes through the rounding [round] of an [Arith],
    about which nothing is assumed, and the library functions they call
    are the fields of a [FloatLib]; every general theorem holds for all
    of their values.  [binary64] is IEEE 754 double arithmetic,
    [exactArith] is arithmetic without rounding.
  - A parsed JSON document is a [json] tree; a property read that yields
    [undefined] is [None].
  - A [Record<string, V3>] is an association list of its own properties
    in [Object.keys] order; a read with a computed key also sees the
    members of [Object.prototype].
  - Built-ins whose value is not rational or not defined in the sources
    (number/string coercions, [Date.parse], [Math.sqrt], [Math.atan2],
    [Math.acos], [radToDeg]) are fields of the records [Builtins] and
    [MathLib]; every general theorem holds for all of their values.
  - Case mapping is the ASCII one. *)

From Stdlib Require Import QArith ZArith List String Ascii Bool Lia Lqa.
From Stdlib Require Import Qabs Qminmax Qround DecimalString.
Import ListNotations.

Local Open Scope string_scope.
Local Open Scope Q_scope.

Set Warnings "-register-all".

(* ================================================================== *)
(** * JavaScript values *)

Module JS.

(** A JavaScript number. *)
Inductive jsnum : Type :=
| Fin (q : Q)
| PosInf
| NegInf
| NaN.

(** The result of [JSON.parse]. *)
Inductive json : Type :=
| JNull
| JBool (b : bool)
| JNum (n : jsnum)
| JStr (s : string)
| JArr (l : list json)
| JObj (l : list (string * json)).

(** Coercions of the host whose results are not determined by a rational
    model of numbers. *)
Record Builtins : Type := {
  NumberToString : jsnum -> string;      (* Number.prototype.toString *)
  StringToNumber : string -> jsnum;      (* Number(s) on a string *)
  Date_parse : string -> jsnum           (* Date.parse, NaN when invalid *)
}.

Definition Qlt_bool (a b : Q) : bool := negb (Qle_bool b a).

(** [Number.isFinite] on a number. *)
Definition isFiniteNum (n : jsnum) : bool :=
  match n with Fin _ => true | _ => false end.

(** [Number.isFinite(v)]: false on everything that is not a number. *)
Definition Number_isFinite (v : option json) : bool :=
  match v with Some (JNum n) => isFiniteNum n | _ => false end.


Definition num_div (a b : jsnum) : jsnum :=
  match a, b with
  | NaN, _ | _, NaN => NaN
  | Fin x, Fin y =>
      if Qeq_bool y 0 then
        (if Qeq_bool x 0 then NaN
         else if Qlt_bool 0 x then PosInf else NegInf)
      else Fin (x / y)
  | Fin _, _ => Fin 0
  | _, PosInf | _, NegInf => NaN
  | PosInf, Fin y => if Qlt_bool y 0 then NegInf else PosInf
  | NegInf, Fin y => if Qlt_bool y 0 then PosInf else NegInf
  end.

Definition num_abs (a : jsnum) : jsnum :=
  match a with
  | Fin x => Fin (Qabs x)
  | PosInf | NegInf => PosInf
  | NaN => NaN
  end.

(** [a < b]; false as soon as one side is NaN. *)
Definition num_ltb (a b : jsnum) : bool :=
  match a, b with
  | NaN, _ | _, NaN => false
  | Fin x, Fin y => Qlt_bool x y
  | NegInf, NegInf => false
  | NegInf, _ => true
  | _, NegInf => false
  | PosInf, _ => false
  | Fin _, PosInf => true
  end.

(** [-a]. *)
Definition num_neg (a : jsnum) : jsnum :=
  match a with
  | Fin x => Fin (- x)
  | PosInf => NegInf
  | NegInf => PosInf
  | NaN => NaN
  end.

(** [Math.max(a, b)]: NaN as soon as one side is NaN. *)
Definition num_max (a b : jsnum) : jsnum :=
  match a, b with
  | NaN, _ | _, NaN => NaN
  | _, _ => if num_ltb a b then b else a
  end.

Definition isNaN (a : jsnum) : bool :=
  match a with NaN => true | _ => false end.

(** ** Rounded arithmetic

    The arithmetic of the host on doubles: [round] takes the exact value
    of an operation on finite operands, or of a decimal literal, to the
    double the host yields for it (an infinity on overflow).  The
    operations on non-finite operands follow IEEE 754; a zero divisor
    counts as [+0]. *)
Record Arith : Type := {
  round : Q -> jsnum
}.

Definition isZero (a : jsnum) : bool :=
  match a with Fin x => Qeq_bool x 0 | _ => false end.

Definition isNegative (a : jsnum) : bool := num_ltb a (Fin 0).

Definition infinity (negative : bool) : jsnum :=
  if negative then NegInf else PosInf.

Section WithArith.
Variable A : Arith.

(** A decimal literal of the source text. *)
Definition lit (q : Q) : jsnum := round A q.

(** [a + b]. *)
Definition fl_add (a b : jsnum) : jsnum :=
  match a, b with
  | NaN, _ | _, NaN => NaN
  | Fin x, Fin y => round A (x + y)
  | PosInf, NegInf | NegInf, PosInf => NaN
  | PosInf, _ | _, PosInf => PosInf
  | NegInf, _ | _, NegInf => NegInf
  end.

(** [a - b]. *)
Definition fl_sub (a b : jsnum) : jsnum :=
  match a, b with
  | NaN, _ | _, NaN => NaN
  | Fin x, Fin y => round A (x - y)
  | PosInf, PosInf | NegInf, NegInf => NaN
  | PosInf, _ | _, NegInf => PosInf
  | NegInf, _ | _, PosInf => NegInf
  end.

(** [a * b]. *)
Definition fl_mul (a b : jsnum) : jsnum :=
  match a, b with
  | NaN, _ | _, NaN => NaN
  | Fin x, Fin y => round A (x * y)
  | _, _ =>
      if isZero a || isZero b then NaN
      else infinity (xorb (isNegative a) (isNegative b))
  end.

(** [a / b]. *)
Definition fl_div (a b : jsnum) : jsnum :=
  match a, b with
  | NaN, _ | _, NaN => NaN
  | Fin x, Fin y =>
      if Qeq_bool y 0 then
        (if Qeq_bool x 0 then NaN else infinity (isNegative a))
      else round A (x / y)
  | Fin _, _ => Fin 0
  | _, Fin _ => infinity (xorb (isNegative a) (isNegative b))
  | _, _ => NaN
  end.

End WithArith.

(** ** Objects *)

(** What a call ends in: a value, or an exception that leaves the state
    [s] behind. *)
Inductive outcome (T S : Type) : Type :=
| Returned (v : T)
| Thrown (s : S).
Arguments Returned {T S} v.
Arguments Thrown {T S} s.

(** The property names every plain object inherits from
    [Object.prototype]; each of them reads as a function, or for
    [__proto__] as the prototype object itself, hence as a truthy value
    that is not a vector. *)
Definition objectPrototypeKeys : list string :=
  ["constructor"; "__defineGetter__"; "__defineSetter__"; "hasOwnProperty";
   "__lookupGetter__"; "__lookupSetter__"; "isPrototypeOf";
   "propertyIsEnumerable"; "toString"; "valueOf"; "__proto__";
   "toLocaleString"].

Definition inheritedKey (k : string) : bool :=
  existsb (String.eqb k) objectPrototypeKeys.

(** First binding of a key. *)
Fixpoint assoc {A : Type} (k : string) (l : list (string * A)) : option A :=
  match l with
  | [] => None
  | (k', v) :: r => if String.eqb k k' then Some v else assoc k r
  end.

(** [o[k] = v] on a plain object: replace in place or append. *)
Fixpoint setKey {A : Type} (k : string) (v : A) (l : list (string * A))
  : list (string * A) :=
  match l with
  | [] => [(k, v)]
  | (k', v') :: r =>
      if String.eqb k k' then (k, v) :: r else (k', v') :: setKey k v r
  end.

(** [v?.k] for the property names the sources read: only objects carry
    them. *)
Definition prop (v : option json) (k : string) : option json :=
  match v with
  | Some (JObj l) => assoc k l
  | _ => None
  end.

(** [a ?? b]: [a] unless it is [undefined] or [null]. *)
Definition coalesce (a b : option json) : option json :=
  match a with
  | None | Some JNull => b
  | _ => a
  end.
Infix "??" := coalesce (at level 61, left associativity).

(** ToBoolean. *)
Definition truthy (v : option json) : bool :=
  match v with
  | None | Some JNull => false
  | Some (JBool b) => b
  | Some (JNum (Fin q)) => negb (Qeq_bool q 0)
  | Some (JNum NaN) => false
  | Some (JNum _) => true
  | Some (JStr s) => negb (String.eqb s "")
  | Some (JArr _) | Some (JObj _) => true
  end.

(** [a || b]. *)
Definition or_else (a b : option json) : option json :=
  if truthy a then a else b.
Infix "<||>" := or_else (at level 62, left associativity).

(** ASCII case mapping of [toLowerCase] / [toUpperCase]. *)
Definition lowerChar (c : ascii) : ascii :=
  let n := nat_of_ascii c in
  if ((65 <=? n) && (n <=? 90))%nat then ascii_of_nat (n + 32) else c.

Fixpoint mapString (f : ascii -> ascii) (s : string) : string :=
  match s with
  | EmptyString => EmptyString
  | String c r => String (f c) (mapString f r)
  end.
Definition toLowerCase : string -> string := mapString lowerChar.

(** [s.includes(sub)]. *)
Fixpoint includes (sub s : string) : bool :=
  String.prefix sub s ||
  match s with
  | EmptyString => false
  | String _ r => includes sub r
  end.

(** Decimal name of an array index, as [Object.entries] gives it. *)
Definition indexKey (i : nat) : string :=
  NilZero.string_of_uint (Nat.to_uint i).

Section WithBuiltins.
Variable B : Builtins.

(** [String(v)] / [v.toString()] of a defined value.  (A parsed object
    with an own key [toString] would make the method call throw; such
    documents are outside the model.) *)
Fixpoint toStr (v : json) : string :=
  match v with
  | JNull => "null"
  | JBool true => "true"
  | JBool false => "false"
  | JNum n => NumberToString B n
  | JStr s => s
  | JArr l =>
      String.concat ","
        (map (fun e => match e with JNull => "" | _ => toStr e end) l)
  | JObj _ => "[object Object]"
  end.

(** [Number(v)]. *)
Definition toNumber (v : option json) : jsnum :=
  match v with
  | None => NaN
  | Some JNull => Fin 0
  | Some (JBool b) => if b then Fin 1 else Fin 0
  | Some (JNum n) => n
  | Some (JStr s) => StringToNumber B s
  | Some (JArr l) => StringToNumber B (toStr (JArr l))
  | Some (JObj l) => StringToNumber B (toStr (JObj l))
  end.

End WithBuiltins.

End JS.
Import JS.

(* ================================================================== *)
(** * Track builder: [src/lib/parseHawkEye.ts] *)

Module Parser.

(** A stored joint value: the array literal [[v[0], v[1], v[2]]]; an
    element read past the end of [v] would be [undefined] ([None]). *)
Definition Triple : Type := list (option json).

Record Frame : Type := {
  time : jsnum;
  joints : list (string * Triple)
}.

(** [ParsedTrack] without its optional metric bags, which no property
    below reads. *)
Record ParsedTrack : Type := {
  role : string;
  name : option json;
  personId : option json;
  fps : Q;
  frames : list Frame
}.

(** [Object.entries(J)] when [J && typeof J === "object"], no entry
    otherwise. *)
Fixpoint indexed (i : nat) (l : list json) : list (string * json) :=
  match l with
  | [] => []
  | v :: r => (indexKey i, v) :: indexed (S i) r
  end.

Definition entries (J : json) : list (string * json) :=
  match J with
  | JObj l => l
  | JArr l => indexed 0 l
  | _ => []
  end.

(** [Array.isArray(v) && v.length === 3 && v.every(Number.isFinite)]. *)
Definition isTriple (v : json) : bool :=
  match v with
  | JArr l =>
      (Nat.eqb (List.length l) 3)
      && forallb (fun e => Number_isFinite (Some e)) l
  | _ => false
  end.

Definition elem (v : json) (i : nat) : option json :=
  match v with
  | JArr l => nth_error l i
  | _ => None
  end.

(** [out[k] = val] on the object literal [out]; an assignment to the key
    [__proto__] reaches the prototype setter and creates no own
    property. *)
Definition assign (out : list (string * Triple)) (k : string) (val : Triple)
  : list (string * Triple) :=
  if String.eqb k "__proto__" then out else setKey k val out.

(** The body of the [map] callback of [buildFramesFromPerson]: the loop
    over the entries of one raw frame. *)
Definition tripleEntries (J : json) : list (string * Triple) :=
  fold_left
    (fun out kv =>
       let '(k, v) := kv in
       if isTriple v then assign out k [elem v 0; elem v 1; elem v 2]
       else out)
    (entries J) [].

Fixpoint mapi {A B : Type} (f : A -> nat -> B) (i : nat) (l : list A)
  : list B :=
  match l with
  | [] => []
  | x :: r => f x i :: mapi f (S i) r
  end.

Definition buildFramesFromPerson (person : option json) (fps : Q)
  : list Frame :=
  match prop person "joints" with
  | Some (JArr jointsArr) =>
      if Nat.eqb (List.length jointsArr) 0 then []
      else
        mapi (fun J i =>
                {| time := num_div (Fin (inject_Z (Z.of_nat i))) (Fin fps);
                   joints := tripleEntries J |})
             0%nat jointsArr
  | _ => []
  end.

Section WithBuiltins.
Variable B : Builtins.

Definition normalizeRole (raw : option json) : string :=
  let s :=
    match (prop raw "name" ?? raw) ?? Some (JStr "") with
    | Some v => toLowerCase (toStr B v)
    | None => ""
    end in
  if includes "pitch" s then "pitcher"
  else if includes "bat" s || includes "hit" s then "hitter"
  else if String.eqb s "" then "unknown" else s.

(** [num]: a finite [Number(v)], or [null]. *)
Definition num (v : option json) : option Q :=
  match toNumber B v with
  | Fin q => Some q
  | _ => None
  end.

Definition extractFPS (root person : option json) : Q :=
  match num (prop (prop person "system") "targetFrameRate") with
  | Some q => q
  | None =>
      match num (prop (prop (prop root "samples") "system")
                      "targetFrameRate") with
      | Some q => q
      | None =>
          match num (prop (prop root "system") "targetFrameRate") with
          | Some q => q
          | None => 300
          end
      end
  end.

(** One iteration of [for (const person of people)]. *)
Definition parsePerson (root : option json) (out : list ParsedTrack)
  (person : json) : list ParsedTrack :=
  let fps := extractFPS root (Some person) in
  let frames := buildFramesFromPerson (Some person) fps in
  if Nat.eqb (List.length frames) 0 then out
  else
    out ++ [ {| role := normalizeRole (prop (Some person) "role");
                name := (prop (Some person) "name"
                         <||> prop (Some person) "fullName")
                        <||> prop (Some person) "displayName" <||> None;
                personId := prop (Some person) "personId";
                fps := fps;
                frames := frames |} ].

Definition parseHawkEyeJson (root : option json) : list ParsedTrack :=
  match prop (prop root "samples") "people" with
  | Some (JArr people) => fold_left (parsePerson root) people []
  | _ => []
  end.

End WithBuiltins.

End Parser.

(* ================================================================== *)
(** * Viewer: [src/components/HawkEyeVisualizer3D.tsx] *)

Module Viewer.

(** [V3 = [number, number, number]]; also the carrier of
    [THREE.Vector3]. *)
Record V3 : Type := mkV3 { c0 : Q; c1 : Q; c2 : Q }.

Definition Joints : Type := list (string * V3).

(** A frame of a parsed track.  The track builder computes [time] as
    [i / fps], which is [NaN] or an infinity when the frame rate is 0. *)
Record Frame : Type := {
  time : jsnum;
  joints : Joints
}.

Inductive Hand : Type := HandR | HandL | HandUnknown.
Inductive Side : Type := SideR | SideL.

(** The irrational part of [Math] and of [THREE.MathUtils]. *)
Record MathLib : Type := {
  Math_PI : Q;
  Math_sqrt : Q -> Q;
  Math_atan2 : Q -> Q -> Q;
  Math_acos : Q -> Q
}.

Definition SMOOTH_ALPHA : Q := 35 # 100.
Definition HOME_BASE : V3 := mkV3 (-1) 0 0.

(** ** [THREE.Vector3] *)

Definition vsub (a b : V3) : V3 :=
  mkV3 (c0 a - c0 b) (c1 a - c1 b) (c2 a - c2 b).
Definition vadd (a b : V3) : V3 :=
  mkV3 (c0 a + c0 b) (c1 a + c1 b) (c2 a + c2 b).
Definition multiplyScalar (a : V3) (s : Q) : V3 :=
  mkV3 (c0 a * s) (c1 a * s) (c2 a * s).
Definition addScaledVector (a v : V3) (s : Q) : V3 :=
  mkV3 (c0 a + c0 v * s) (c1 a + c1 v * s) (c2 a + c2 v * s).
Definition dot (a b : V3) : Q := c0 a * c0 b + c1 a * c1 b + c2 a * c2 b.
Definition lengthSq (a : V3) : Q := dot a a.
Definition setZ (a : V3) (z : Q) : V3 := mkV3 (c0 a) (c1 a) z.

Definition clamp (x lo hi : Q) : Q := Qmax lo (Qmin hi x).

Section WithMath.
Variable M : MathLib.

Definition radToDeg (r : Q) : Q := r * (180 / Math_PI M).

Definition vlength (a : V3) : Q := Math_sqrt M (lengthSq a).

(** [normalize()] is [divideScalar(length() || 1)]. *)
Definition normalize (a : V3) : V3 :=
  let n := vlength a in
  let d := if Qeq_bool n 0 then 1 else n in
  mkV3 (c0 a / d) (c1 a / d) (c2 a / d).

Definition angleTo (a b : V3) : Q :=
  let denominator := Math_sqrt M (lengthSq a * lengthSq b) in
  if Qeq_bool denominator 0 then Math_PI M / 2
  else Math_acos M (clamp (dot a b / denominator) (-1) 1).

Definition distanceTo (a b : V3) : Q := vlength (vsub a b).

(** Signed angle between [ref] and [v] on the ground (XY) plane. *)
Definition yawDeg (ref v : V3) : Q :=
  let R := normalize (mkV3 (c0 ref) (c1 ref) 0) in
  let V := normalize (mkV3 (c0 v) (c1 v) 0) in
  let cross := c0 R * c1 V - c1 R * c0 V in
  let d := dot R V in
  radToDeg (Math_atan2 M cross d).

End WithMath.

(** ** Angle wrapping *)

(** [while (d > 180) d -= 360]: at most [fuel] turns. *)
Fixpoint wrapDown (fuel : nat) (d : Q) : Q :=
  match fuel with
  | O => d
  | S f => if Qlt_bool 180 d then wrapDown f (d - 360) else d
  end.

(** [while (d < -180) d += 360]: at most [fuel] turns. *)
Fixpoint wrapUp (fuel : nat) (d : Q) : Q :=
  match fuel with
  | O => d
  | S f => if Qlt_bool d (-180) then wrapUp f (d + 360) else d
  end.

(** A number of turns that always suffices to bring [d] within 180 of
    zero ([turns_enough]). *)
Definition turns (d : Q) : nat := Z.to_nat (Qceiling (Qabs d / 360)).

(** [wrap180] on a finite angle (the source returns any other [d] as it
    is): the two loops, run for as many turns as they can take. *)
Definition wrap180 (d : Q) : Q :=
  let d1 := wrapDown (turns d) d in
  wrapUp (turns d1) d1.

(** [while (prevDeg - cand > 180) cand += 360]. *)
Fixpoint towardUp (fuel : nat) (prevDeg cand : Q) : Q :=
  match fuel with
  | O => cand
  | S f =>
      if Qlt_bool 180 (prevDeg - cand) then towardUp f prevDeg (cand + 360)
      else cand
  end.

(** [while (cand - prevDeg > 180) cand -= 360]. *)
Fixpoint towardDown (fuel : nat) (prevDeg cand : Q) : Q :=
  match fuel with
  | O => cand
  | S f =>
      if Qlt_bool 180 (cand - prevDeg) then towardDown f prevDeg (cand - 360)
      else cand
  end.

(** The value of [cand] after the two loops of [unwrapToPrev]. *)
Definition unwrapCandidate (newDeg prevDeg : Q) : Q :=
  let cand1 := towardUp (turns (prevDeg - newDeg)) prevDeg newDeg in
  towardDown (turns (cand1 - prevDeg)) prevDeg cand1.

Definition unwrapToPrev (newDeg prevDeg : Q) : Q :=
  wrap180 (unwrapCandidate newDeg prevDeg).

(** ** Series helpers *)

Definition nthQ (l : list Q) (i : nat) : Q := nth i l 0.

(** [a[i]] for an index within the series. *)
Definition nthN (l : list jsnum) (i : nat) : jsnum := nth i l (Fin 0).

(** The integers [lo], [lo+1], ..., [hi]. *)
Definition zrange (lo hi : Z) : list Z :=
  map (fun d => (lo + Z.of_nat d)%Z) (seq 0 (Z.to_nat (hi - lo + 1))).

Section Series.
Variable A : Arith.

Definition finiteDiff (vals times : list jsnum) : list jsnum :=
  map (fun i =>
         match i with
         | O => Fin 0
         | S j =>
             let dt :=
               num_max (lit A (1 # 1000000))
                       (fl_sub A (nthN times i) (nthN times j)) in
             fl_div A (fl_sub A (nthN vals i) (nthN vals j)) dt
         end)
      (seq 0 (List.length vals)).

Definition movingAvg (a : list jsnum) (k : nat) : list jsnum :=
  if (k <=? 1)%nat then a
  else
    let n := List.length a in
    let r := Z.of_nat (k / 2) in
    map (fun i =>
           let '(s, c) :=
             fold_left
               (fun sc j =>
                  if ((0 <=? j) && (j <? Z.of_nat n))%Z
                  then (fl_add A (fst sc) (nthN a (Z.to_nat j)),
                        (snd sc + 1)%Z)
                  else sc)
               (zrange (Z.of_nat i - r) (Z.of_nat i + r)) (Fin 0, 0%Z) in
           if (c =? 0)%Z then nthN a i else fl_div A s (Fin (inject_Z c)))
        (seq 0 n).

End Series.

(** [deg % 360], the remainder that carries the sign of [deg]. *)
Definition rem360 (deg : Q) : Q :=
  let q := deg / 360 in
  deg - 360 * inject_Z (Z.quot (Qnum q) (Zpos (Qden q))).

Definition fold90 (deg : Q) : Q :=
  let d := Qabs (rem360 deg) in
  let d180 := if Qlt_bool 180 d then 360 - d else d in
  Qmin d180 (180 - d180).

(** [arr.push(p ? f(p) : last)] over a whole series; [last] is what
    the first push falls back to. *)
Fixpoint carry {T : Type} (last : T) (l : list (option T)) : list T :=
  match l with
  | [] => []
  | o :: r =>
      let v := match o with Some x => x | None => last end in
      v :: carry v r
  end.

(** [J[k1] || J[k2] || ...] on joint values, which are arrays and hence
    truthy when present. *)
Fixpoint firstOf (keys : list string) (J : Joints) : option V3 :=
  match keys with
  | [] => None
  | k :: r =>
      match assoc k J with
      | Some v => Some v
      | None => firstOf r J
      end
  end.

(** ** Release time from JSON *)

Section WithBuiltins.
Variable B : Builtins.






End WithBuiltins.

(** ** Event detection *)

(** The components of a [THREE.Vector3] built from computed numbers. *)
Record Vec : Type := mkVec { vx : jsnum; vy : jsnum; vz : jsnum }.

Definition toVec (v : V3) : Vec := mkVec (Fin (c0 v)) (Fin (c1 v)) (Fin (c2 v)).

(** The functions of [Math] and of the three.js library that event
    detection calls, as they act on doubles; their code is not part of
    the sources. *)
Record FloatLib : Type := {
  lib_hypot : jsnum -> jsnum -> jsnum;       (* Math.hypot *)
  lib_atan2 : jsnum -> jsnum -> jsnum;       (* Math.atan2 *)
  lib_lengthSq : Vec -> jsnum;               (* Vector3.lengthSq *)
  lib_normalize : Vec -> Vec;                (* Vector3.normalize *)
  lib_dot : Vec -> Vec -> jsnum;             (* Vector3.dot *)
  lib_angleTo : Vec -> Vec -> jsnum;         (* Vector3.angleTo *)
  lib_radToDeg : jsnum -> jsnum              (* MathUtils.radToDeg *)
}.

Definition ankleKeys (s : Side) : list string :=
  match s with
  | SideR => ["rAnkle"; "rightAnkle"; "rHeel"; "rBigToe"]
  | SideL => ["lAnkle"; "leftAnkle"; "lHeel"; "lBigToe"]
  end.

Definition toeKeys (s : Side) : list string :=
  match s with
  | SideR => ["rBigToe"; "rightBigToe"; "rHeel"]
  | SideL => ["lBigToe"; "leftBigToe"; "lHeel"]
  end.

Definition wristKeys (s : Side) : list string :=
  match s with
  | SideR => ["rWrist"; "rightWrist"]
  | SideL => ["lWrist"; "leftWrist"]
  end.

Definition shoulderKeys (s : Side) : list string :=
  match s with
  | SideR => ["rShoulder"; "rightShoulder"]
  | SideL => ["lShoulder"; "leftShoulder"]
  end.

Definition elbowKeys (s : Side) : list string :=
  match s with
  | SideR => ["rElbow"; "rightElbow"]
  | SideL => ["lElbow"; "leftElbow"]
  end.

(** [frames[i].joints]. *)
Definition jointsAt (frames : list Frame) (i : nat) : Joints :=
  match nth_error frames i with
  | Some f => joints f
  | None => []
  end.

(** [frames[i]?.time ?? 0]. *)
Definition timeAt (frames : list Frame) (i : nat) : jsnum :=
  match nth_error frames i with
  | Some f => time f
  | None => Fin 0
  end.

Definition times (frames : list Frame) : list jsnum := map time frames.

(** One coordinate of a joint over the track, missing samples repeating
    the last pushed value. *)
Definition coordSeries (pick : Joints -> option V3) (c : V3 -> Q)
  (frames : list Frame) : list Q :=
  carry 0 (map (fun f => option_map c (pick (joints f))) frames).

(** [X[i-1] ?? X[i]]. *)
Definition prevOrSelf (l : list jsnum) (i : nat) : jsnum :=
  match i with
  | O => nthN l i
  | S j => nthN l j
  end.

(** [Y[i] <= Y[i - 1] && Y[i] <= Y[i + 1]]. *)
Definition localMinAt (Y : list Q) (i : nat) : bool :=
  Qle_bool (nthQ Y i) (nthQ Y (i - 1))
  && Qle_bool (nthQ Y i) (nthQ Y (i + 1)).

Section Detectors.
Variable A : Arith.

(** [Math.abs(frames[i].time - tSec)]. *)
Definition timeError (frames : list Frame) (t : jsnum) (i : nat) : jsnum :=
  num_abs (fl_sub A (timeAt frames i) t).

(** One turn of the loop of [indexFromTime]; the state is
    [(best, bestErr)]. *)
Definition nearStep (frames : list Frame) (t : jsnum) (st : nat * jsnum)
  (i : nat) : nat * jsnum :=
  let err := timeError frames t i in
  if num_ltb err (snd st) then (i, err) else st.

(** Nearest frame to [tSec]; [bestErr] starts at [Infinity]. *)
Definition indexFromTime (frames : list Frame) (tSec : option jsnum)
  : option nat :=
  match frames, tSec with
  | [], _ | _, None => None
  | _, Some t =>
      Some (fst (fold_left (nearStep frames t)
                           (seq 0 (List.length frames)) (0%nat, PosInf)))
  end.

(** The wrist loop shared by [detectHandedness] and the fallback of
    [findBallRelease]: sums [rx], [lx] and counts [rc], [lc] of the
    frame-to-frame x displacement over [i = start+1 .. n-1]. *)
Definition wristStep (frames : list Frame) (st : jsnum * jsnum * Z * Z)
  (i : nat) : jsnum * jsnum * Z * Z :=
  let '(rx, lx, rc, lc) := st in
  let a := jointsAt frames (i - 1) in
  let b := jointsAt frames i in
  let '(rx, rc) :=
    match firstOf (wristKeys SideR) a, firstOf (wristKeys SideR) b with
    | Some r0, Some r1 =>
        (fl_add A rx (fl_sub A (Fin (c0 r1)) (Fin (c0 r0))), (rc + 1)%Z)
    | _, _ => (rx, rc)
    end in
  let '(lx, lc) :=
    match firstOf (wristKeys SideL) a, firstOf (wristKeys SideL) b with
    | Some l0, Some l1 =>
        (fl_add A lx (fl_sub A (Fin (c0 l1)) (Fin (c0 l0))), (lc + 1)%Z)
    | _, _ => (lx, lc)
    end in
  (rx, lx, rc, lc).

Definition wristLoop (frames : list Frame) : jsnum * jsnum * Z * Z :=
  let n := List.length frames in
  let start := (n * 3 / 4)%nat in
  fold_left (wristStep frames) (seq (start + 1) (n - (start + 1)))
            (Fin 0, Fin 0, 0%Z, 0%Z).

(** [(rdx, ldx)]: [rc ? rx / rc : 0] and [lc ? lx / lc : 0]. *)
Definition wristDrift (frames : list Frame) : jsnum * jsnum :=
  let '(rx, lx, rc, lc) := wristLoop frames in
  (if (rc =? 0)%Z then Fin 0 else fl_div A rx (Fin (inject_Z rc)),
   if (lc =? 0)%Z then Fin 0 else fl_div A lx (Fin (inject_Z lc))).

Definition detectHandedness (frames : list Frame) : Hand :=
  match frames with
  | [] => HandUnknown
  | _ =>
      let '(rdx, ldx) := wristDrift frames in
      if num_ltb rdx ldx then HandR
      else if num_ltb ldx rdx then HandL
      else HandUnknown
  end.

Variable L : FloatLib.

(** [new THREE.Vector3(a[0]-b[0], a[1]-b[1], a[2]-b[2])]. *)
Definition difference (a b : V3) : Vec :=
  mkVec (fl_sub A (Fin (c0 a)) (Fin (c0 b)))
        (fl_sub A (Fin (c1 a)) (Fin (c1 b)))
        (fl_sub A (Fin (c2 a)) (Fin (c2 b))).

(** [yawDeg] on computed vectors. *)
Definition yawDegF (ref v : Vec) : jsnum :=
  let R := lib_normalize L (mkVec (vx ref) (vy ref) (Fin 0)) in
  let V := lib_normalize L (mkVec (vx v) (vy v) (Fin 0)) in
  let cross := fl_sub A (fl_mul A (vx R) (vy V)) (fl_mul A (vy R) (vx V)) in
  let d := lib_dot L R V in
  lib_radToDeg L (lib_atan2 L cross d).

Definition leadSideOf (frames : list Frame) (handHint : Hand) : Side :=
  match handHint with
  | HandR => SideL
  | HandL => SideR
  | HandUnknown =>
      let mid := jointsAt frames (List.length frames / 2) in
      match firstOf (ankleKeys SideR) mid, firstOf (ankleKeys SideL) mid with
      | Some rA, Some lA => if Qlt_bool (c0 rA) (c0 lA) then SideR else SideL
      | Some _, None => SideR
      | None, _ => SideL
      end
  end.

(** The foot direction on the ground, in radians. *)
Definition footYawSeries (leadSide : Side) (frames : list Frame)
  : list jsnum :=
  carry (Fin 0)
    (map (fun f =>
            match firstOf (ankleKeys leadSide) (joints f),
                  firstOf (toeKeys leadSide) (joints f) with
            | Some a, Some toe =>
                let dir := difference toe a in
                let dir := mkVec (vx dir) (vy dir) (Fin 0) in
                let dir :=
                  if num_ltb (lit A (1 # 10000000000)) (lib_lengthSq L dir)
                  then lib_normalize L dir else dir in
                Some (lib_atan2 L (vy dir) (vx dir))
            | _, _ => None
            end)
         frames).

(** [(vy0 * 4.0) + (-speedDrop * 2.0) + (yawStable * 1.5) + (Y[i] * 0.2)]. *)
Definition stepScore (Y : list Q) (Vy Vh dYaw : list jsnum) (i : nat)
  : jsnum :=
  let vy0 := num_abs (nthN Vy i) in
  let speedDrop := fl_sub A (nthN Vh (i - 1)) (nthN Vh i) in
  let yawStable := nthN dYaw i in
  fl_add A
    (fl_add A
       (fl_add A (fl_mul A vy0 (lit A 4))
                 (fl_mul A (num_neg speedDrop) (lit A 2)))
       (fl_mul A yawStable (lit A (15 # 10))))
    (fl_mul A (Fin (nthQ Y i)) (lit A (2 # 10))).

(** One turn of the scoring loop; the state is [(bestIdx, bestScore)]. *)
Definition footStep (Y : list Q) (Vy Vh dYaw : list jsnum)
  (st : option nat * jsnum) (i : nat) : option nat * jsnum :=
  let localMin := localMinAt Y i in
  if negb localMin then st
  else
    let score := stepScore Y Vy Vh dYaw i in
    if num_ltb score (snd st) then (Some i, score) else st.

Definition findFootStrike (frames : list Frame) (handHint : Hand)
  : option nat :=
  match frames with
  | [] => None
  | _ =>
      let leadSide := leadSideOf frames handHint in
      let aKey := firstOf (ankleKeys leadSide) in
      let Y := coordSeries aKey c1 frames in
      let X := map Fin (coordSeries aKey c0 frames) in
      let Z := map Fin (coordSeries aKey c2 frames) in
      let T := times frames in
      let Vy := movingAvg A (finiteDiff A (map Fin Y) T) 3 in
      let Vh :=
        movingAvg A
          (map (fun i =>
                  fl_div A
                    (lib_hypot L (fl_sub A (nthN X i) (prevOrSelf X i))
                                 (fl_sub A (nthN Z i) (prevOrSelf Z i)))
                    (num_max (lit A (1 # 1000000))
                             (fl_sub A (nthN T i) (prevOrSelf T i))))
               (seq 0 (List.length X)))
          3 in
      let footYaw := footYawSeries leadSide frames in
      let dYaw := movingAvg A (map num_abs (finiteDiff A footYaw T)) 5 in
      fst (fold_left (footStep Y Vy Vh dYaw)
                     (seq 2 (List.length Y - 4)) (None, PosInf))
  end.

Definition throwSideOf (frames : list Frame) (handHint : Hand) : Side :=
  match handHint with
  | HandR => SideR
  | HandL => SideL
  | HandUnknown =>
      let '(rdx, ldx) := wristDrift frames in
      if num_ltb rdx ldx then SideR else SideL
  end.

Definition elbowExtVel (side : Side) (frames : list Frame) : list jsnum :=
  let ang :=
    carry (Fin 0)
      (map (fun f =>
              let j := joints f in
              match firstOf (shoulderKeys side) j,
                    firstOf (elbowKeys side) j,
                    firstOf (wristKeys side) j with
              | Some sh, Some el, Some wr =>
                  let u := lib_normalize L (difference sh el) in
                  let f' := lib_normalize L (difference wr el) in
                  Some (lib_radToDeg L (lib_angleTo L u f'))
              | _, _, _ => None
              end)
           frames) in
  movingAvg A (finiteDiff A ang (times frames)) 3.

Definition trunkYawSeries (frames : list Frame) : list jsnum :=
  carry (Fin 0)
    (map (fun f =>
            let j := joints f in
            match firstOf (shoulderKeys SideL) j,
                  firstOf (shoulderKeys SideR) j with
            | Some lSh, Some rSh =>
                Some (yawDegF (toVec HOME_BASE) (difference rSh lSh))
            | _, _ => None
            end)
         frames).

(** The seed when no release time is declared: the index of the
    smallest [Vx[i]], [i >= 1], below [1e9]. *)
Definition minVxIndex (Vx : list jsnum) : nat :=
  fst (fold_left
         (fun st i =>
            if num_ltb (nthN Vx i) (snd st) then (i, nthN Vx i) else st)
         (seq 1 (List.length Vx - 1)) (0%nat, lit A 1000000000)).

(** [(-Vx[i]) * 1.0 + (dElbow[i] ?? 0) * 0.8 + (dTrunk[i] ?? 0) * 0.5]. *)
Definition relScore (Vx dElbow dTrunk : list jsnum) (k : nat) : jsnum :=
  fl_add A
    (fl_add A (fl_mul A (num_neg (nthN Vx k)) (lit A 1))
              (fl_mul A (nthN dElbow k) (lit A (8 # 10))))
    (fl_mul A (nthN dTrunk k) (lit A (5 # 10))).

(** One turn of the scoring loop; the state is [(best, bestScore)]. *)
Definition releaseStep (Vx dElbow dTrunk : list jsnum) (st : nat * jsnum)
  (i : Z) : nat * jsnum :=
  let k := Z.to_nat i in
  let score := relScore Vx dElbow dTrunk k in
  if num_ltb (snd st) score then (k, score) else st.

Definition findBallRelease (frames : list Frame) (handHint : Hand)
  (jsonReleaseSec : option jsnum) : option nat :=
  match frames with
  | [] => None
  | _ =>
      let seedIdx :=
        match jsonReleaseSec with
        | Some _ => indexFromTime frames jsonReleaseSec
        | None => None
        end in
      let throwSide := throwSideOf frames handHint in
      let T := times frames in
      let X := map Fin (coordSeries (firstOf (wristKeys throwSide)) c0 frames) in
      let Vx := movingAvg A (finiteDiff A X T) 3 in
      let dElbow := elbowExtVel throwSide frames in
      let dTrunk :=
        movingAvg A (map num_abs (finiteDiff A (trunkYawSeries frames) T)) 3 in
      let seedIdx :=
        match seedIdx with
        | Some i => i
        | None => minVxIndex Vx
        end in
      let lo := Z.max 1 (Z.of_nat seedIdx - 20) in
      let hi := Z.min (Z.of_nat (List.length Vx) - 2)
                      (Z.of_nat seedIdx + 20) in
      Some (fst (fold_left (releaseStep Vx dElbow dTrunk)
                           (zrange lo hi) (seedIdx, NegInf)))
  end.

End Detectors.

(** ** Display smoother *)

(** [pv.multiplyScalar(1 - SMOOTH_ALPHA).addScaledVector(cv, SMOOTH_ALPHA)]. *)
Definition blend (pv cv : V3) : V3 :=
  addScaledVector (multiplyScalar pv (1 - SMOOTH_ALPHA)) cv SMOOTH_ALPHA.

(** What [prev[k]] reads on the plain object [prev]: an own property, or
    else a member of [Object.prototype], or else [undefined]. *)
Inductive Slot : Type :=
| Own (pv : V3)
| Inherited
| Absent.

Definition readKey (prev : Joints) (k : string) : Slot :=
  match assoc k prev with
  | Some pv => Own pv
  | None => if inheritedKey k then Inherited else Absent
  end.

(** [o[k] = v] on a plain object: an assignment to [__proto__] reaches
    the prototype setter and creates no own property. *)
Definition assignKey (o : Joints) (k : string) (v : V3) : Joints :=
  if String.eqb k "__proto__" then o else setKey k v o.

(** One turn of the loop over [Object.entries(rawJ)]; the state is the
    map behind [prevJointMapRef.current], updated in place, and [out].
    An inherited member is truthy, so the blend branch is entered with
    it, and the call of its [multiplyScalar], which is [undefined],
    throws. *)
Definition smoothStep (st : outcome (Joints * Joints) Joints)
  (kp : string * V3) : outcome (Joints * Joints) Joints :=
  match st with
  | Thrown prev => Thrown prev
  | Returned (prev, out) =>
      let '(k, p) := kp in
      match readKey prev k with
      | Own pv =>
          let pv' := blend pv p in
          Returned (setKey k pv' prev, assignKey out k pv')
      | Inherited => Thrown prev
      | Absent => Returned (assignKey prev k p, assignKey out k p)
      end
  end.

(** Returns [out] and the new content of [prevJointMapRef.current],
    rebuilt from [out]; when the loop throws, the map keeps what the
    loop had stored in it. *)
Definition frameJoints (prev rawJ : Joints)
  : outcome (Joints * Joints) Joints :=
  let out : Joints := [] in
  match fold_left smoothStep rawJ (Returned (prev, out)) with
  | Returned (_, out) => Returned (out, out)
  | Thrown prev' => Thrown prev'
  end.

(** ** Per-frame kinematics *)

Definition isLetter (c : ascii) : bool :=
  let n := nat_of_ascii c in
  (((65 <=? n) && (n <=? 90)) || ((97 <=? n) && (n <=? 122)))%nat.

Fixpoint filterString (f : ascii -> bool) (s : string) : string :=
  match s with
  | EmptyString => EmptyString
  | String c r =>
      if f c then String c (filterString f r) else filterString f r
  end.

(** [name.replace(/[^a-z]/gi, "").toLowerCase()]. *)
Definition normKey (s : string) : string :=
  toLowerCase (filterString isLetter s).

(** [get] / [getFrom]: the first key of [J] equal to [name] up to case
    and non-letters. *)
Fixpoint getFrom (J : Joints) (name : string) : option V3 :=
  match J with
  | [] => None
  | (k, v) :: r =>
      if String.eqb (normKey k) (normKey name) then Some v else getFrom r name
  end.

(** One operand of a chain [get("a") || J["b"] || ...]. *)
Inductive Lookup : Type :=
| ByName (name : string)
| ByKey (key : string).

Fixpoint resolve (ls : list Lookup) (J : Joints) : option V3 :=
  match ls with
  | [] => None
  | l :: r =>
      match (match l with
             | ByName n => getFrom J n
             | ByKey k => assoc k J
             end) with
      | Some v => Some v
      | None => resolve r J
      end
  end.

Definition lShoulderOf := resolve [ByName "lShoulder"; ByKey "leftShoulder"].
Definition rShoulderOf := resolve [ByName "rShoulder"; ByKey "rightShoulder"].
Definition lElbowOf := resolve [ByName "lElbow"; ByKey "leftElbow"].
Definition rElbowOf := resolve [ByName "rElbow"; ByKey "rightElbow"].
Definition lWristOf := resolve [ByName "lWrist"; ByKey "leftWrist"].
Definition rWristOf := resolve [ByName "rWrist"; ByKey "rightWrist"].
Definition lHipOf := resolve [ByName "lHip"; ByKey "leftHip"].
Definition rHipOf := resolve [ByName "rHip"; ByKey "rightHip"].
Definition lKneeOf := resolve [ByName "lKnee"; ByKey "leftKnee"].
Definition rKneeOf := resolve [ByName "rKnee"; ByKey "rightKnee"].
Definition lAnkleOf :=
  resolve [ByName "lAnkle"; ByKey "leftAnkle"; ByKey "lHeel";
           ByKey "leftHeel"; ByKey "lBigToe"; ByKey "leftBigToe"].
Definition rAnkleOf :=
  resolve [ByName "rAnkle"; ByKey "rightAnkle"; ByKey "rHeel";
           ByKey "rightHeel"; ByKey "rBigToe"; ByKey "rightBigToe"].
Definition pelvisRawOf :=
  resolve [ByName "midHip"; ByName "pelvis"; ByKey "hipCenter";
           ByKey "pelvisCenter"].
Definition chestRawOf :=
  resolve [ByName "chest"; ByKey "midShoulder"; ByKey "upperChest";
           ByKey "sternum"; ByName "neck"; ByKey "c7"].
Definition headOf := resolve [ByName "head"; ByName "nose"; ByKey "topHead"].

Definition midpoint (a b : V3) : V3 :=
  mkV3 ((c0 a + c0 b) / 2) ((c1 a + c1 b) / 2) ((c2 a + c2 b) / 2).

(** [raw || (l && r ? midpoint : undefined)]. *)
Definition orMidpoint (raw l r : option V3) : option V3 :=
  match raw with
  | Some v => Some v
  | None =>
      match l, r with
      | Some a, Some b => Some (midpoint a b)
      | _, _ => None
      end
  end.

Definition pelvisOf (J : Joints) : option V3 :=
  orMidpoint (pelvisRawOf J) (lHipOf J) (rHipOf J).
Definition chestOf (J : Joints) : option V3 :=
  orMidpoint (chestRawOf J) (lShoulderOf J) (rShoulderOf J).

Definition homeVecOf (flipHome : bool) : V3 :=
  if flipHome then multiplyScalar HOME_BASE (-1) else HOME_BASE.

(** The derived-metrics bag; [None] is [undefined].  The [dbg] field
    (frame number, basis printout, hand) is display only and left out. *)
Record Metrics : Type := {
  trunkRotDeg : option Q;
  hipRotDeg : option Q;
  hipMinusTrunk : option Q;
  rAbd : option Q;
  lAbd : option Q;
  rKneeFlex : option Q;
  lKneeFlex : option Q;
  rElbowFlex : option Q;
  lElbowFlex : option Q;
  stride : option Q;
  stridePct : option Q;
  linDispHome : option Q
}.

Section Kinematics.
Variable M : MathLib.

(** The trunk-up axis [T] of the local body basis. *)
Definition trunkUp (pelvis chest : option V3) : V3 :=
  match pelvis, chest with
  | Some p, Some c =>
      let t := vsub c p in
      if Qlt_bool (1 # 10000000000) (lengthSq t) then normalize M t
      else mkV3 0 1 0
  | _, _ => mkV3 0 1 0
  end.

Definition abduction (sh el : option V3) (T : V3) : option Q :=
  match sh, el with
  | Some s, Some e =>
      let upper := vsub e s in
      if Qlt_bool (1 # 10000000000) (lengthSq upper)
      then Some (fold90 (radToDeg M (angleTo M (normalize M upper) T)))
      else None
  | _, _ => None
  end.

Definition kneeFlex (hip knee ankle : option V3) : option Q :=
  match hip, knee, ankle with
  | Some h, Some k, Some a =>
      let t := normalize M (vsub h k) in
      let s := normalize M (vsub a k) in
      Some (radToDeg M (angleTo M t s))
  | _, _, _ => None
  end.

Definition elbowFlex (shoulder elbow wrist : option V3) : option Q :=
  match shoulder, elbow, wrist with
  | Some sh, Some el, Some wr =>
      let u := normalize M (vsub sh el) in
      let f := normalize M (vsub wr el) in
      Some (radToDeg M (angleTo M u f))
  | _, _, _ => None
  end.

(** [wrap180(yawDeg(homeVec, rSh - lSh))] when both shoulders are
    present. *)
Definition rawTrunkYaw (flipHome : bool) (J : Joints) : option Q :=
  match lShoulderOf J, rShoulderOf J with
  | Some lSh, Some rSh =>
      Some (wrap180 (yawDeg M (homeVecOf flipHome) (vsub rSh lSh)))
  | _, _ => None
  end.

(** The trunk-rotation block of [metrics]: the value reported and the
    new content of [prevTrunkDegRef.current]. *)
Definition trunkRotation (flipHome : bool) (prev : option Q) (J : Joints)
  : option Q * option Q :=
  match rawTrunkYaw flipHome J with
  | Some raw =>
      let unwrapped :=
        match prev with
        | None => raw
        | Some p => unwrapToPrev raw p
        end in
      let smoothed :=
        match prev with
        | None => unwrapped
        | Some p => (7 # 10) * p + (3 # 10) * unwrapped
        end in
      (Some (wrap180 smoothed), Some smoothed)
  | None => (None, prev)
  end.

Definition trunkCoG (pelvis chest rSh lSh : option V3) : option V3 :=
  let pts :=
    flat_map (fun o => match o with Some v => [v] | None => [] end)
             [pelvis; chest; rSh; lSh] in
  match pts with
  | [] => None
  | _ =>
      Some (multiplyScalar (fold_left vadd pts (mkV3 0 0 0))
                           (1 / inject_Z (Z.of_nat (List.length pts))))
  end.

(** The [metrics] memo for a track with frames: [J] is the current
    frame's joints, [bodyHeight] is [None] for the empty input box, and
    [prev] is [prevTrunkDegRef.current]. *)
Definition metrics (bodyHeight : option Q) (flipHome : bool)
  (prev : option Q) (J : Joints) : Metrics * option Q :=
  let lSh := lShoulderOf J in
  let rSh := rShoulderOf J in
  let lEl := lElbowOf J in
  let rEl := rElbowOf J in
  let lHip := lHipOf J in
  let rHip := rHipOf J in
  let lKn := lKneeOf J in
  let rKn := rKneeOf J in
  let lAn := lAnkleOf J in
  let rAn := rAnkleOf J in
  let pelvis := pelvisOf J in
  let chest := chestOf J in
  let head := headOf J in
  let H0 :=
    match head, lAn, rAn with
    | Some hv, Some av, _ => distanceTo M hv av
    | Some hv, None, Some av => distanceTo M hv av
    | _, _, _ => 1
    end in
  let H :=
    match bodyHeight with
    | Some b => if Qlt_bool 0 b then b else H0
    | None => H0
    end in
  let stride :=
    match lAn, rAn with
    | Some l, Some r => Some (distanceTo M l r)
    | _, _ => None
    end in
  let stridePct :=
    match stride with
    | Some st =>
        if negb (Qeq_bool st 0) && negb (Qeq_bool H 0)
        then Some (st / H * 100) else None
    | None => None
    end in
  let homeVec := homeVecOf flipHome in
  let hipRotDeg :=
    match lHip, rHip with
    | Some l, Some r => Some (yawDeg M homeVec (vsub r l))
    | _, _ => None
    end in
  let T := trunkUp pelvis chest in
  let '(trunkRotDeg, prev') := trunkRotation flipHome prev J in
  let hipMinusTrunk :=
    match hipRotDeg, trunkRotDeg with
    | Some h, Some t => Some (wrap180 (h - t))
    | _, _ => None
    end in
  let hipsCoG :=
    match lHip, rHip with
    | Some l, Some r => Some (midpoint l r)
    | _, _ => None
    end in
  let linDispHome :=
    match trunkCoG pelvis chest rSh lSh, hipsCoG with
    | Some t, Some h => Some (c0 h - c0 t)
    | _, _ => None
    end in
  ({| trunkRotDeg := trunkRotDeg;
      hipRotDeg := hipRotDeg;
      hipMinusTrunk := hipMinusTrunk;
      rAbd := abduction rSh rEl T;
      lAbd := abduction lSh lEl T;
      rKneeFlex := kneeFlex rHip rKn rAn;
      lKneeFlex := kneeFlex lHip lKn lAn;
      rElbowFlex :=
        elbowFlex (firstOf (shoulderKeys SideR) J)
                  (firstOf (elbowKeys SideR) J)
                  (firstOf (wristKeys SideR) J);
      lElbowFlex :=
        elbowFlex (firstOf (shoulderKeys SideL) J)
                  (firstOf (elbowKeys SideL) J)
                  (firstOf (wristKeys SideL) J);
      stride := stride;
      stridePct := stridePct;
      linDispHome := linDispHome |},
   prev').

(** ** Biomechanics series *)

(** One turn of the loop of [biomech], restricted to the trunk rotation:
    the state is [prevTrunk] and the entries of [series.trunkRot] written
    so far; [None] in the series is [NaN]. *)
Definition biomechTrunkStep (flipHome : bool)
  (st : option Q * list (option Q)) (f : Frame)
  : option Q * list (option Q) :=
  let '(prevTrunk, series) := st in
  match rawTrunkYaw flipHome (joints f) with
  | Some raw =>
      let prevTrunk :=
        match prevTrunk with
        | None => raw
        | Some p => p
        end in
      let unwrapped := unwrapToPrev raw prevTrunk in
      (Some unwrapped, (series ++ [Some unwrapped])%list)
  | None => (prevTrunk, (series ++ [None])%list)
  end.

(** [biomech.trunkRot]. *)
Definition biomechTrunkRot (flipHome : bool) (frames : list Frame)
  : list (option Q) :=
  snd (fold_left (biomechTrunkStep flipHome) frames (None, [])).

(** ** Sequential run of the engine *)

(** The kinematics engine stepped over the raw joints of frames
    [0, 1, ...], [prevTrunkDegRef] starting at [null]. *)
Definition engineStep (bodyHeight : option Q) (flipHome : bool)
  (st : option Q * list Metrics) (f : Frame) : option Q * list Metrics :=
  let '(m, prev') := metrics bodyHeight flipHome (fst st) (joints f) in
  (prev', (snd st ++ [m])%list).

Definition engineRun (bodyHeight : option Q) (flipHome : bool)
  (frames : list Frame) : list Metrics :=
  snd (fold_left (engineStep bodyHeight flipHome) frames (None, [])).

End Kinematics.

End Viewer.
Import Viewer.

(* ================================================================== *)
(** * Sample hosts, for evaluating the definitions *)

(** A host for ASCII documents whose numbers are integers: integers are
    printed and read in decimal, and [Date.parse] knows the two ISO
    instants used below. *)
Definition sampleHost : Builtins := {|
  NumberToString := fun n =>
    match n with
    | Fin q => NilZero.string_of_int (Z.to_int (Qfloor q))
    | PosInf => "Infinity"
    | NegInf => "-Infinity"
    | NaN => "NaN"
    end;
  StringToNumber := fun s =>
    if String.eqb s "" then Fin 0
    else match NilZero.int_of_string s with
         | Some i => Fin (inject_Z (Z.of_int i))
         | None => NaN
         end;
  Date_parse := fun s =>
    if String.eqb s "2024-04-01T18:00:00.000Z" then Fin 1711994400000
    else if String.eqb s "2024-04-01T18:00:02.500Z" then Fin 1711994402500
    else NaN
|}.

Definition Qsqrt_exact (q : Q) : Q :=
  let r := Qred q in
  Z.sqrt (Qnum r) # Pos.sqrt (Qden r).

(** A rational stand-in for [Math], exact on squares of rationals and,
    relative to its own [Math_PI], on the quarter turns: [radToDeg] of
    its [atan2] is 0, 90, 180 or -90 on the coordinate axes, and of its
    [acos] is 0, 90, 180 at 1, 0, -1. *)
Definition axisMath : MathLib := {|
  Math_PI := 355 # 113;
  Math_sqrt := Qsqrt_exact;
  Math_atan2 := fun y x =>
    let quarter := (355 # 226) * (Qabs y / (Qabs x + Qabs y)) in
    let theta := if Qle_bool 0 x then quarter else (355 # 113) - quarter in
    if Qlt_bool y 0 then - theta else theta;
  Math_acos := fun x => (355 # 226) * (1 - x)
|}.

(** Arithmetic without rounding. *)
Definition exactArith : Arith := {| round := Fin |}.

(** The integer nearest to [n / d], ties going to the even one
    ([0 <= n], [0 < d]). *)
Definition nearestEven (n d : Z) : Z :=
  let q := (n / d)%Z in
  match (2 * (n mod d) ?= d)%Z with
  | Lt => q
  | Gt => (q + 1)%Z
  | Eq => if Z.even q then q else (q + 1)%Z
  end.

(** The double nearest to [q], ties going to the even mantissa; an
    infinity from half a unit in the last place above the largest
    double. *)
Definition round64 (q : Q) : jsnum :=
  let n := Qnum q in
  let d := Zpos (Qden q) in
  if (n =? 0)%Z then Fin 0
  else
    let a := Z.abs n in
    let e0 := (Z.log2 a - Z.log2 d)%Z in
    let e :=
      if (a * 2 ^ Z.max 0 (- e0) <? d * 2 ^ Z.max 0 e0)%Z
      then (e0 - 1)%Z else e0 in
    let p := Z.max (e - 52) (-1074) in
    let m :=
      if (0 <=? p)%Z then nearestEven a (d * 2 ^ p)
      else nearestEven (a * 2 ^ (- p)) d in
    if (0 <=? p)%Z && (2 ^ 1024 <=? m * 2 ^ p)%Z
    then (if (0 <? n)%Z then PosInf else NegInf)
    else
      let v := if (0 <=? p)%Z then inject_Z (m * 2 ^ p)
               else Qmake m (Z.to_pos (2 ^ (- p))) in
      Fin (Qred (if (0 <? n)%Z then v else - v)).

(** IEEE 754 binary64 arithmetic, the arithmetic of JavaScript. *)
Definition binary64 : Arith := {| round := round64 |}.

(** The double that a decimal literal denotes. *)
Definition double (q : Q) : Q :=
  match round64 q with
  | Fin d => d
  | _ => 0
  end.

Definition finiteVec (v : Vec) : option V3 :=
  match v with
  | mkVec (Fin x) (Fin y) (Fin z) => Some (mkV3 x y z)
  | _ => None
  end.

Definition onFinite (f : Q -> Q -> Q) (a b : jsnum) : jsnum :=
  match a, b with
  | Fin x, Fin y => Fin (f x y)
  | _, _ => NaN
  end.

(** The stand-in [axisMath] as a library on computed numbers; it
    answers [NaN] as soon as an argument is not finite. *)
Definition axisLib : FloatLib := {|
  lib_hypot := onFinite (fun x y => Qsqrt_exact (x * x + y * y));
  lib_atan2 := onFinite (Math_atan2 axisMath);
  lib_lengthSq := fun v =>
    match finiteVec v with
    | Some u => Fin (lengthSq u)
    | None => NaN
    end;
  lib_normalize := fun v =>
    match finiteVec v with
    | Some u => toVec (normalize axisMath u)
    | None => mkVec NaN NaN NaN
    end;
  lib_dot := fun a b =>
    match finiteVec a, finiteVec b with
    | Some u, Some w => Fin (dot u w)
    | _, _ => NaN
    end;
  lib_angleTo := fun a b =>
    match finiteVec a, finiteVec b with
    | Some u, Some w => Fin (angleTo axisMath u w)
    | _, _ => NaN
    end;
  lib_radToDeg := fun r =>
    match r with
    | Fin x => Fin (radToDeg axisMath x)
    | _ => NaN
    end
|}.

(* ================================================================== *)
(** * Vocabulary of the statements *)

(** [sub] occurs in [s]. *)
Definition Substring (sub s : string) : Prop :=
  exists pre post, s = pre ++ sub ++ post.

(** A well-formed joint record has no repeated key. *)
Definition WellKeyed {A : Type} (J : list (string * A)) : Prop :=
  NoDup (map fst J).

(** A length-3 array of finite numbers. *)
Definition FiniteTriple (t : Parser.Triple) : Prop :=
  exists a b c : Q,
    t = [Some (JNum (Fin a)); Some (JNum (Fin b)); Some (JNum (Fin c))].

(** [root.samples.people] when it is an array. *)
Definition peopleOf (root : option json) : list json :=
  match prop (prop root "samples") "people" with
  | Some (JArr l) => l
  | _ => []
  end.

(** The frames the parser builds for one person record. *)
Definition framesOfPerson (B : Builtins) (root : option json) (person : json)
  : list Parser.Frame :=
  Parser.buildFramesFromPerson (Some person)
    (Parser.extractFPS B root (Some person)).

Definition nonEmptyb {A : Type} (l : list A) : bool :=
  negb (Nat.eqb (List.length l) 0).

(** ** Sample documents *)

Definition num3 (a b c : Q) : json :=
  JArr [JNum (Fin a); JNum (Fin b); JNum (Fin c)].

(** One pitcher with a single raw frame holding a good joint, a joint
    with an infinite component and a joint that is too short, followed by
    a person whose joint array is empty. *)
Definition sampleRoot : json :=
  JObj [("samples",
         JObj [("people",
                JArr [JObj [("role", JStr "Pitcher");
                            ("joints",
                             JArr [JObj [("rWrist", num3 1 2 3);
                                         ("lWrist",
                                          JArr [JNum (Fin 1); JNum PosInf;
                                                JNum (Fin 3)]);
                                         ("head", JArr [JNum (Fin 1)])]])];
                      JObj [("role", JStr "Hitter");
                            ("joints", JArr [])]])])].

Definition sampleFrame : Parser.Frame :=
  {| Parser.time := Fin (0 * / 300);
     Parser.joints :=
       [("rWrist", [Some (JNum (Fin 1)); Some (JNum (Fin 2));
                    Some (JNum (Fin 3))])] |}.

Definition sampleTrack : Parser.ParsedTrack :=
  {| Parser.role := "pitcher";
     Parser.name := None;
     Parser.personId := None;
     Parser.fps := 300;
     Parser.frames := [sampleFrame] |}.


(** The last available value of a series. *)
Fixpoint lastDefined (l : list (option Q)) : option Q :=
  match l with
  | [] => None
  | o :: r =>
      match lastDefined r with
      | Some x => Some x
      | None => o
      end
  end.

(** The trunk value the series writes for a frame whose wrapped raw yaw
    is [raw], after a previous available series value [prev]: the raw
    yaw passed through [unwrapToPrev], with no smoothing. *)
Definition seriesEntry (raw prev : option Q) : option Q :=
  match raw with
  | None => None
  | Some r =>
      Some (unwrapToPrev r (match prev with Some p => p | None => r end))
  end.

(** A frame holding only the two shoulders, the left one at the origin. *)
Definition shoulderFrame (t : Q) (rSh : V3) : Frame :=
  {| time := Fin t;
     joints := [("lShoulder", mkV3 0 0 0); ("rShoulder", rSh)] |}.

(** Shoulder line along the home axis (yaw 0), then a quarter turn away
    from it (yaw 90). *)
Definition quarterTurnTrack : list Frame :=
  [shoulderFrame 0 (mkV3 (-1) 0 0); shoulderFrame (1 # 300) (mkV3 0 (-1) 0)].


(** The height series [Y] of the lead ankle that [findFootStrike]
    scans. *)
Definition leadAnkleY (frames : list Frame) (handHint : Hand) : list Q :=
  coordSeries (firstOf (ankleKeys (leadSideOf frames handHint))) c1 frames.

(** A track of one frame, too short to have an interior frame. *)
Definition oneFrameTrack : list Frame :=
  [{| time := Fin 0;
      joints := [("lAnkle", mkV3 0 0 0); ("rAnkle", mkV3 1 0 0)] |}].

(** A pose with the right arm, the chest and the right hip, but neither
    left hip nor pelvis. *)
Definition noLeftHipPose : Joints :=
  [("rShoulder", mkV3 0 0 0); ("rElbow", mkV3 1 0 0);
   ("chest", mkV3 1 0 0); ("rHip", mkV3 0 0 (-1))].

(** The same pose with a pelvis joint of its own. *)
Definition pelvisPose : Joints :=
  (noLeftHipPose ++ [("pelvis", mkV3 0 0 0)])%list.

(** No stand-in for the pelvis has to be built from the two hips. *)
Definition PelvisNotSynthesized (J : Joints) : Prop :=
  pelvisRawOf J <> None \/ rHipOf J = None \/ chestOf J = None.

(** A lookup that cannot resolve to the key [k]. *)
Definition avoids (k : string) (l : Lookup) : Prop :=
  match l with
  | ByName n => normKey k <> normKey n
  | ByKey k0 => k0 <> k
  end.

(** ** Wrist displacement over the last quarter *)

(** The frame indices [i] visited by the wrist loop: [start + 1 .. n - 1]
    with [start = floor(0.75 n)]. *)
Definition lastQuarter (frames : list Frame) : list nat :=
  let n := List.length frames in
  seq (n * 3 / 4 + 1) (n - (n * 3 / 4 + 1)).

(** The frame-to-frame x displacements of one wrist over the last
    quarter, as computed, one for each pair of consecutive frames that
    both hold the wrist. *)
Definition displacements (A : Arith) (side : Side) (frames : list Frame)
  (idxs : list nat) : list jsnum :=
  flat_map
    (fun i =>
       match firstOf (wristKeys side) (jointsAt frames (i - 1)),
             firstOf (wristKeys side) (jointsAt frames i) with
       | Some w0, Some w1 => [fl_sub A (Fin (c0 w1)) (Fin (c0 w0))]
       | _, _ => []
       end)
    idxs.

(** Accumulated (net) displacement: the displacements added up in frame
    order, starting from 0. *)
Definition netDisplacement (A : Arith) (side : Side) (frames : list Frame)
  : jsnum :=
  fold_left (fl_add A) (displacements A side frames (lastQuarter frames))
            (Fin 0).

Definition pairCount (A : Arith) (side : Side) (frames : list Frame) : Z :=
  Z.of_nat (List.length (displacements A side frames (lastQuarter frames))).

(** Net displacement per counted pair; 0 when no pair is counted. *)
Definition meanDisplacement (A : Arith) (side : Side) (frames : list Frame)
  : jsnum :=
  if (pairCount A side frames =? 0)%Z then Fin 0
  else fl_div A (netDisplacement A side frames)
                (Fin (inject_Z (pairCount A side frames))).

(** [a < b] on computed numbers; it fails as soon as one side is NaN. *)
Definition Below (a b : jsnum) : Prop := num_ltb a b = true.

(** Exchanging the two wrists of a track. *)
Definition swapKey (k : string) : string :=
  if String.eqb k "rWrist" then "lWrist"
  else if String.eqb k "lWrist" then "rWrist"
  else if String.eqb k "rightWrist" then "leftWrist"
  else if String.eqb k "leftWrist" then "rightWrist"
  else k.

Definition swapWrists (J : Joints) : Joints :=
  map (fun kv => (swapKey (fst kv), snd kv)) J.

Definition swapTrack (frames : list Frame) : list Frame :=
  map (fun f => {| time := time f; joints := swapWrists (joints f) |}) frames.

Definition otherSide (s : Side) : Side :=
  match s with SideR => SideL | SideL => SideR end.

Definition flipHand (h : Hand) : Hand :=
  match h with
  | HandR => HandL
  | HandL => HandR
  | HandUnknown => HandUnknown
  end.

(** Frame [i] of a track at 300 frames a second, holding the given
    joints at the given places on the x axis. *)
Definition wristFrame (i : nat) (ws : list (string * Q)) : Frame :=
  {| time := fl_div binary64 (Fin (inject_Z (Z.of_nat i))) (Fin 300);
     joints := map (fun kx => (fst kx, mkV3 (snd kx) 0 0)) ws |}.

(** Twelve frames; over the last quarter (frames 9 to 11) the right
    wrist moves 0, -1.5, -3 and the left wrist, tracked from frame 10
    only, moves 0, -2. *)
Definition unevenTrack : list Frame :=
  (map (fun i => wristFrame i []) (seq 0 9)
   ++ [wristFrame 9 [("rWrist", 0)];
       wristFrame 10 [("rWrist", - (3 # 2)); ("lWrist", 0)];
       wristFrame 11 [("rWrist", -3); ("lWrist", -2)]])%list.

(** Eight frames; over the last quarter (frames 6 and 7) both wrists are
    tracked: the right one moves by -2, the left one by -1. *)
Definition evenTrack : list Frame :=
  (map (fun i => wristFrame i []) (seq 0 6)
   ++ [wristFrame 6 [("rWrist", 0); ("lWrist", 0)];
       wristFrame 7 [("rWrist", -2); ("lWrist", -1)]])%list.

(** Sixteen frames; over the last quarter (frames 12 to 15) the right
    wrist stays and then moves to -0.9 in one step, the left wrist moves
    to -0.1, -0.3 and -0.9: the same net displacement, reached in one
    step and in three. *)
Definition tieTrack : list Frame :=
  (map (fun i => wristFrame i []) (seq 0 12)
   ++ [wristFrame 12 [("rWrist", 0); ("lWrist", 0)];
       wristFrame 13 [("rWrist", 0); ("lWrist", - double (1 # 10))];
       wristFrame 14 [("rWrist", 0); ("lWrist", - double (3 # 10))];
       wristFrame 15 [("rWrist", - double (9 # 10));
                      ("lWrist", - double (9 # 10))]])%list.

(** A stored smoothed pose and a raw pose for the display smoother. *)
Definition samplePrevPose : Joints := [("rWrist", mkV3 0 0 0)].
Definition sampleRawPose : Joints :=
  [("rWrist", mkV3 1 2 3); ("lWrist", mkV3 4 5 6)].

(* ================================================================== *)
(** * Viewer: pitch metric helpers *)






Section MetricHelpers.
Variable B : Builtins.



End MetricHelpers.


(** ** Vocabulary of the further properties *)

(** [a] and [b] differ by a whole number of turns. *)
Definition Congruent360 (a b : Q) : Prop :=
  exists k : Z, a == b + 360 * inject_Z k.

(** The score of frame [i] of a track in [findFootStrike]. *)
Definition footScore (A : Arith) (L : FloatLib) (frames : list Frame)
  (handHint : Hand) (i : nat) : jsnum :=
  let leadSide := leadSideOf frames handHint in
  let aKey := firstOf (ankleKeys leadSide) in
  let Y := coordSeries aKey c1 frames in
  let X := map Fin (coordSeries aKey c0 frames) in
  let Z := map Fin (coordSeries aKey c2 frames) in
  let T := times frames in
  let Vy := movingAvg A (finiteDiff A (map Fin Y) T) 3 in
  let Vh :=
    movingAvg A
      (map (fun i =>
              fl_div A
                (lib_hypot L (fl_sub A (nthN X i) (prevOrSelf X i))
                             (fl_sub A (nthN Z i) (prevOrSelf Z i)))
                (num_max (lit A (1 # 1000000))
                         (fl_sub A (nthN T i) (prevOrSelf T i))))
           (seq 0 (List.length X)))
      3 in
  let footYaw := footYawSeries A L leadSide frames in
  let dYaw := movingAvg A (map num_abs (finiteDiff A footYaw T)) 5 in
  stepScore A Y Vy Vh dYaw i.

(** The score of frame [k] of a track in [findBallRelease]. *)
Definition releaseScore (A : Arith) (L : FloatLib) (frames : list Frame)
  (handHint : Hand) (k : nat) : jsnum :=
  let throwSide := throwSideOf A frames handHint in
  let T := times frames in
  let X := map Fin (coordSeries (firstOf (wristKeys throwSide)) c0 frames) in
  let Vx := movingAvg A (finiteDiff A X T) 3 in
  let dElbow := elbowExtVel A L throwSide frames in
  let dTrunk :=
    movingAvg A (map num_abs (finiteDiff A (trunkYawSeries A L frames) T)) 3 in
  relScore A Vx dElbow dTrunk k.

(** ** Loops that keep the best candidate *)

Section Scan.
Variable better : jsnum -> jsnum -> bool.
Variables B X : Type.
Variable found : X -> B.
Variable elig : X -> bool.
Variable sc : X -> jsnum.
Variable x : nat -> X.

(** One turn: the state is the best candidate so far and its score. *)
Definition scanStep (st : B * jsnum) (i : X) : B * jsnum :=
  if elig i && better (sc i) (snd st) then (found i, sc i) else st.

(** The state after the candidates [x 0], ..., [x (m - 1)]: either no
    eligible candidate beat the initial score, or the state holds an
    eligible candidate that beat it, that none beats, and that beats
    every earlier eligible candidate whose score is a number. *)
Definition ScanInv (init : B * jsnum) (m : nat) (st : B * jsnum) : Prop :=
  (st = init
   /\ forall d, (d < m)%nat -> elig (x d) = true ->
                better (sc (x d)) (snd init) = false)
  \/ exists d0, (d0 < m)%nat /\ elig (x d0) = true
       /\ st = (found (x d0), sc (x d0))
       /\ better (sc (x d0)) (snd init) = true
       /\ (forall d, (d < m)%nat -> elig (x d) = true ->
                     better (sc (x d)) (sc (x d0)) = false)
       /\ (forall d, (d < d0)%nat -> elig (x d) = true ->
                     isNaN (sc (x d)) = true
                     \/ better (sc (x d0)) (sc (x d)) = true).

End Scan.
Arguments scanStep better {B X} found elig sc st i.
Arguments ScanInv better {B X} found elig sc x init m st.

(** [b < a]. *)
Definition num_gtb (a b : jsnum) : bool := num_ltb b a.

(** A track holding the left ankle only, at the heights [ys], with the
    frame times [i / fps] of the track builder, in double arithmetic. *)
Definition ankleTrack (fps : Q) (ys : list Q) : list Frame :=
  map (fun i =>
         {| time := fl_div binary64 (Fin (inject_Z (Z.of_nat i))) (Fin fps);
            joints := [("lAnkle", mkV3 0 (nth i ys 0) 0)] |})
      (seq 0 (List.length ys)).

(** Seven frames at frame rate 0, the ankle coming down to height 1 at
    frame 3 and rising again. *)
Definition stalledTrack : list Frame := ankleTrack 0 [5; 4; 3; 1; 3; 4; 5].

(** Ten frames at four frames a second, with dips of the ankle's height
    at frames 4 and 7. *)
Definition twoDipTrack : list Frame :=
  ankleTrack 4
    (map double
         [1 # 10; 1; 5 # 10; 9 # 10; 2 # 10; 6 # 10; 3 # 10; 2 # 10;
          7 # 10; 11 # 10]).

(** Two frames at times 1 and 1 + 2^-52. *)
Definition closeTrack : list Frame :=
  [{| time := Fin 1; joints := [] |};
   {| time := Fin (1 + (1 # 4503599627370496)); joints := [] |}].

(** The frame times the track builder computes at frame rate 0:
    [i / 0]. *)
Definition StalledTimes (frames : list Frame) : Prop :=
  forall i, (i < List.length frames)%nat ->
            timeAt frames i = num_div (Fin (inject_Z (Z.of_nat i))) (Fin 0).


(** No joint of the record is named like a member of
    [Object.prototype]. *)
Definition OrdinaryKeys (J : Joints) : Prop :=
  forall k, In k (map fst J) -> inheritedKey k = false.

(** One turn of the smoother's loop for a joint that reads no inherited
    member: a stored position is blended, a missing one is seeded. *)
Definition smoothOrdinary (st : Joints * Joints) (kp : string * V3)
  : Joints * Joints :=
  let '(prev, out) := st in
  let '(k, p) := kp in
  match assoc k prev with
  | Some pv =>
      let pv' := blend pv p in
      (setKey k pv' prev, setKey k pv' out)
  | None => (setKey k p prev, setKey k p out)
  end.

(** A raw pose with a joint named like a member of [Object.prototype]. *)
Definition constructorPose : Joints :=
  [("rWrist", mkV3 1 2 3); ("constructor", mkV3 4 5 6)].

(** What the display smoother returns for one entry of the raw frame,
    given the stored smoothed positions. *)
Definition smoothedEntry (prev : Joints) (kp : string * V3) : string * V3 :=
  (fst kp,
   match assoc (fst kp) prev with
   | Some pv => blend pv (snd kp)
   | None => snd kp
   end).

(** ** Proof steps *)

(** Every lookup of a chain avoids the key at hand. *)
Ltac avoided :=
  repeat constructor; cbn [avoids]; intros H; vm_compute in H; discriminate H.

(** The key at hand is not in a list of literal keys. *)
Ltac not_listed :=
  cbn; intuition discriminate.

(* ================================================================== *)
(** * Basic facts *)

Lemma Qlt_bool_iff (a b : Q) : Qlt_bool a b = true <-> a < b.
Proof.
  unfold Qlt_bool. rewrite negb_true_iff. split; intros H.
  - apply Qnot_le_lt. intros Hle. apply Qle_bool_iff in Hle. congruence.
  - destruct (Qle_bool b a) eqn:E; [|reflexivity].
    apply Qle_bool_iff in E. exfalso. apply (Qlt_not_le _ _ H E).
Qed.

Lemma Qlt_bool_false (a b : Q) : Qlt_bool a b = false <-> b <= a.
Proof.
  unfold Qlt_bool. rewrite negb_false_iff. apply Qle_bool_iff.
Qed.

Lemma assoc_In {A : Type} (k : string) (l : list (string * A)) (v : A) :
  assoc k l = Some v -> In (k, v) l.
Proof.
  induction l as [|[k' v'] r IH]; simpl; [discriminate|].
  destruct (String.eqb k k') eqn:E.
  - apply String.eqb_eq in E. intros [= ->]. subst. now left.
  - intros H. right. auto.
Qed.

Lemma assoc_setKey_same {A : Type} (k : string) (v : A) l :
  assoc k (setKey k v l) = Some v.
Proof.
  induction l as [|[k' v'] r IH]; simpl.
  - now rewrite String.eqb_refl.
  - destruct (String.eqb k k') eqn:E; simpl.
    + now rewrite String.eqb_refl.
    + now rewrite E.
Qed.

Lemma assoc_setKey_other {A : Type} (k k0 : string) (v : A) l :
  k0 <> k -> assoc k0 (setKey k v l) = assoc k0 l.
Proof.
  intros Hne. induction l as [|[k' v'] r IH]; simpl.
  - destruct (String.eqb k0 k) eqn:E; [|reflexivity].
    apply String.eqb_eq in E. contradiction.
  - destruct (String.eqb k k') eqn:E; simpl.
    + apply String.eqb_eq in E. subst k'.
      destruct (String.eqb k0 k) eqn:E'; [|reflexivity].
      apply String.eqb_eq in E'. contradiction.
    + now rewrite IH.
Qed.

(** ** Comparison of computed numbers *)

Lemma num_ltb_irrefl (a : jsnum) : num_ltb a a = false.
Proof.
  destruct a as [x| | |]; cbn; try reflexivity.
  apply Qlt_bool_false. apply Qle_refl.
Qed.

Lemma num_ltb_trans (a b c : jsnum) :
  num_ltb a b = true -> num_ltb b c = true -> num_ltb a c = true.
Proof.
  destruct a as [x| | |], b as [y| | |], c as [z| | |]; cbn;
    try reflexivity; try discriminate.
  rewrite !Qlt_bool_iff. apply Qlt_trans.
Qed.

Lemma num_ltb_asym (a b : jsnum) : num_ltb a b = true -> num_ltb b a = false.
Proof.
  destruct a as [x| | |], b as [y| | |]; cbn; try reflexivity;
    try discriminate.
  rewrite Qlt_bool_iff, Qlt_bool_false. apply Qlt_le_weak.
Qed.

(** [a < s] and not [j < s], for a number [j], give [a < j]. *)
Lemma num_ltb_pass (a s j : jsnum) :
  num_ltb a s = true -> num_ltb j s = false -> isNaN j = false ->
  num_ltb a j = true.
Proof.
  destruct a as [x| | |], s as [y| | |], j as [z| | |]; cbn;
    try reflexivity; try discriminate.
  rewrite !Qlt_bool_iff, Qlt_bool_false. intros H1 H2 _.
  now apply Qlt_le_trans with y.
Qed.

(** [s < a] and not [s < j], for a number [j], give [j < a]. *)
Lemma num_gtb_pass (a s j : jsnum) :
  num_ltb s a = true -> num_ltb s j = false -> isNaN j = false ->
  num_ltb j a = true.
Proof.
  destruct a as [x| | |], s as [y| | |], j as [z| | |]; cbn;
    try reflexivity; try discriminate.
  rewrite !Qlt_bool_iff, Qlt_bool_false. intros H1 H2 _.
  now apply Qle_lt_trans with y.
Qed.

(* ================================================================== *)
(** * Role normalisation (C1) *)

Lemma prefix_app (a s : string) :
  String.prefix a s = true <-> exists post, s = a ++ post.
Proof.
  revert s. induction a as [|c a IH]; intros s.
  - destruct s; simpl; split; intros _; try reflexivity;
      eexists; reflexivity.
  - destruct s as [|d s]; simpl.
    + split; [discriminate|]. intros [post H]. discriminate.
    + destruct (ascii_dec c d) as [->|Hne].
      * rewrite IH. split; intros [post H]; exists post.
        -- now rewrite H.
        -- now injection H.
      * split; [discriminate|]. intros [post H]. injection H as H1 H2.
        congruence.
Qed.

Lemma includes_spec (sub s : string) :
  includes sub s = true <-> Substring sub s.
Proof.
  unfold Substring. induction s as [|c s IH].
  - cbn [includes]. rewrite orb_false_r, prefix_app. split.
    + intros [post H]. exists "", post. exact H.
    + intros [pre [post H]]. destruct pre; simpl in H.
      * now exists post.
      * discriminate.
  - cbn [includes]. rewrite orb_true_iff, prefix_app, IH. split.
    + intros [[post H]|[pre [post H]]].
      * exists "", post. exact H.
      * exists (String c pre), post. simpl. now rewrite H.
    + intros [pre [post H]]. destruct pre as [|d pre]; simpl in H.
      * left. now exists post.
      * right. injection H as _ H. now exists pre, post.
Qed.

Lemma includes_false (sub s : string) :
  includes sub s = false <-> ~ Substring sub s.
Proof.
  rewrite <- includes_spec.
  destruct (includes sub s); split; intros H; congruence.
Qed.

Lemma toLowerCase_empty (s : string) : toLowerCase s = "" <-> s = "".
Proof.
  destruct s; simpl; split; intros H; try reflexivity; discriminate.
Qed.

(** C1, as the code has it: a label containing "pitch" (after
    lower-casing) normalises to [pitcher]; otherwise one containing "bat"
    or "hit" normalises to [hitter]; otherwise the empty label normalises
    to [unknown] and any other label to its own lower-cased text. *)
Theorem normalizeRole_label (B : Builtins) (s : string) :
  let l := toLowerCase s in
  let r := Parser.normalizeRole B (Some (JStr s)) in
  (Substring "pitch" l /\ r = "pitcher")
  \/ (~ Substring "pitch" l
      /\ (Substring "bat" l \/ Substring "hit" l) /\ r = "hitter")
  \/ (~ Substring "pitch" l /\ ~ Substring "bat" l /\ ~ Substring "hit" l
      /\ ((s = "" /\ r = "unknown") \/ (s <> "" /\ r = l))).
Proof.
  cbv zeta. unfold Parser.normalizeRole. cbn [prop coalesce toStr].
  destruct (includes "pitch" (toLowerCase s)) eqn:Ep.
  - left. split; [now apply includes_spec|reflexivity].
  - right. apply includes_false in Ep.
    destruct (includes "bat" (toLowerCase s)) eqn:Eb.
    + left. cbn [orb]. repeat split; [exact Ep|].
      left. now apply includes_spec.
    + destruct (includes "hit" (toLowerCase s)) eqn:Eh; cbn [orb].
      * left. repeat split; [exact Ep|]. right. now apply includes_spec.
      * right. apply includes_false in Eb, Eh.
        repeat split; try assumption.
        destruct (String.eqb (toLowerCase s) "") eqn:Ee.
        -- left. apply String.eqb_eq in Ee.
           apply -> toLowerCase_empty in Ee. now split.
        -- right. split; [|reflexivity]. intros ->. discriminate.
Qed.

(** The label "Catcher" contains none of "pitch", "bat", "hit", is not
    empty, and does not normalise to [unknown]: it comes back
    lower-cased. *)
Lemma normalizeRole_Catcher :
  includes "pitch" (toLowerCase "Catcher") = false
  /\ includes "bat" (toLowerCase "Catcher") = false
  /\ includes "hit" (toLowerCase "Catcher") = false
  /\ Parser.normalizeRole sampleHost (Some (JStr "Catcher")) = "catcher"
  /\ Parser.normalizeRole sampleHost (Some (JStr "Catcher")) <> "unknown".
Proof.
  repeat split; try reflexivity. vm_compute. discriminate.
Qed.

(* ================================================================== *)
(** * Track builder (C6, C10) *)

Section ParserFacts.
Variable B : Builtins.
Variable root : option json.

Lemma nonEmptyb_true {A : Type} (l : list A) :
  nonEmptyb l = true <-> l <> [].
Proof.
  destruct l; unfold nonEmptyb; simpl; split; intros H;
    congruence || discriminate || reflexivity.
Qed.

Lemma parsePerson_app (out : list Parser.ParsedTrack) (person : json) :
  Parser.parsePerson B root out person
  = (out ++ Parser.parsePerson B root [] person)%list.
Proof.
  unfold Parser.parsePerson.
  destruct (Nat.eqb _ 0); [now rewrite app_nil_r|reflexivity].
Qed.

Lemma fold_parsePerson (people : list json) (out : list Parser.ParsedTrack) :
  fold_left (Parser.parsePerson B root) people out
  = (out ++ flat_map (Parser.parsePerson B root []) people)%list.
Proof.
  revert out. induction people as [|p r IH]; intros out; simpl.
  - now rewrite app_nil_r.
  - rewrite IH, parsePerson_app, <- app_assoc. reflexivity.
Qed.

Lemma parseHawkEyeJson_flat :
  Parser.parseHawkEyeJson B root
  = flat_map (Parser.parsePerson B root []) (peopleOf root).
Proof.
  unfold Parser.parseHawkEyeJson, peopleOf.
  destruct (prop (prop root "samples") "people") as [[| | | |l|]|];
    try reflexivity.
  apply fold_parsePerson.
Qed.

Lemma parsePerson_frames (person : json) :
  map Parser.frames (Parser.parsePerson B root [] person)
  = if nonEmptyb (framesOfPerson B root person)
    then [framesOfPerson B root person] else [].
Proof.
  unfold Parser.parsePerson, nonEmptyb, framesOfPerson.
  destruct (Nat.eqb _ 0); reflexivity.
Qed.

Lemma parsed_frames_filter :
  map Parser.frames (Parser.parseHawkEyeJson B root)
  = filter nonEmptyb (map (framesOfPerson B root) (peopleOf root)).
Proof.
  rewrite parseHawkEyeJson_flat.
  induction (peopleOf root) as [|p r IH]; [reflexivity|].
  cbn [flat_map map filter]. rewrite map_app, IH, parsePerson_frames.
  destruct (nonEmptyb (framesOfPerson B root p)); reflexivity.
Qed.

Lemma parsed_track_origin (t : Parser.ParsedTrack) :
  In t (Parser.parseHawkEyeJson B root) ->
  exists person,
    In person (peopleOf root)
    /\ Parser.frames t = framesOfPerson B root person
    /\ Parser.frames t <> [].
Proof.
  rewrite parseHawkEyeJson_flat, in_flat_map.
  intros [person [Hin Ht]]. exists person. split; [exact Hin|].
  unfold Parser.parsePerson in Ht. fold (framesOfPerson B root person) in Ht.
  destruct (framesOfPerson B root person) as [|f fs] eqn:E; simpl in Ht.
  - contradiction.
  - destruct Ht as [<-|[]]. simpl. split; [reflexivity|discriminate].
Qed.

End ParserFacts.

(** C6: the tracks returned by [parseHawkEyeJson] are, in order, the
    frame lists of exactly those person records whose frame list is not
    empty; so every returned track has a non-empty [frames] array, and a
    person whose joint array gives no frame is skipped. *)
Theorem parseHawkEyeJson_frames_nonempty (B : Builtins) (root : option json)
  (t : Parser.ParsedTrack) (Ht : In t (Parser.parseHawkEyeJson B root)) :
  Parser.frames t <> []
  /\ map Parser.frames (Parser.parseHawkEyeJson B root)
     = filter nonEmptyb (map (framesOfPerson B root) (peopleOf root)).
Proof.
  split; [|apply parsed_frames_filter].
  destruct (parsed_track_origin B root t Ht) as [p [_ [_ H]]]. exact H.
Qed.

(** C6 at the sample document: its only track has one frame. *)
Lemma parseHawkEyeJson_frames_nonempty_witness :
  In sampleTrack (Parser.parseHawkEyeJson sampleHost (Some sampleRoot))
  /\ Parser.frames sampleTrack <> []
  /\ map Parser.frames (Parser.parseHawkEyeJson sampleHost (Some sampleRoot))
     = filter nonEmptyb
         (map (framesOfPerson sampleHost (Some sampleRoot))
              (peopleOf (Some sampleRoot))).
Proof.
  assert (H : In sampleTrack
                (Parser.parseHawkEyeJson sampleHost (Some sampleRoot)))
    by (vm_compute; left; reflexivity).
  split; [exact H|].
  exact (parseHawkEyeJson_frames_nonempty sampleHost (Some sampleRoot)
           sampleTrack H).
Defined.

Section TripleFacts.

Lemma isTriple_finite (v : json) :
  Parser.isTriple v = true ->
  FiniteTriple [Parser.elem v 0; Parser.elem v 1; Parser.elem v 2].
Proof.
  destruct v as [| | | |l|]; try discriminate.
  destruct l as [|a [|b [|c [|d l]]]]; try discriminate.
  unfold Parser.isTriple. cbn [List.length Nat.eqb andb forallb].
  rewrite !andb_true_iff. intros [Ha [Hb [Hc _]]].
  destruct a as [| |[qa| | |]| | |]; try discriminate.
  destruct b as [| |[qb| | |]| | |]; try discriminate.
  destruct c as [| |[qc| | |]| | |]; try discriminate.
  exists qa, qb, qc. reflexivity.
Qed.

Lemma setKey_values {A : Type} (P : A -> Prop) (k : string) (v : A) l :
  P v -> (forall k' v', In (k', v') l -> P v') ->
  forall k' v', In (k', v') (setKey k v l) -> P v'.
Proof.
  intros Hv. induction l as [|[k0 v0] r IH]; intros Hl k' v'; simpl.
  - intros [[= <- <-]|[]]. exact Hv.
  - destruct (String.eqb k k0).
    + intros [[= <- <-]|Hin]; [exact Hv|].
      apply (Hl k' v'). now right.
    + intros [[= <- <-]|Hin].
      * apply (Hl k0 v0). now left.
      * apply IH with (k' := k'); [|exact Hin].
        intros k1 v1 H1. apply (Hl k1 v1). now right.
Qed.

Lemma tripleEntries_fold (es : list (string * json))
  (out : list (string * Parser.Triple)) :
  (forall k v, In (k, v) out -> FiniteTriple v) ->
  forall k v,
    In (k, v)
       (fold_left
          (fun out kv =>
             let '(k, v) := kv in
             if Parser.isTriple v
             then Parser.assign out k
                    [Parser.elem v 0; Parser.elem v 1; Parser.elem v 2]
             else out)
          es out) ->
    FiniteTriple v.
Proof.
  revert out. induction es as [|[k0 v0] r IH]; intros out Hout; simpl.
  - exact Hout.
  - apply IH. destruct (Parser.isTriple v0) eqn:E; [|exact Hout].
    unfold Parser.assign. destruct (String.eqb k0 "__proto__"); [exact Hout|].
    apply setKey_values; [|exact Hout]. now apply isTriple_finite.
Qed.

Lemma tripleEntries_finite (J : json) (k : string) (v : Parser.Triple) :
  In (k, v) (Parser.tripleEntries J) -> FiniteTriple v.
Proof.
  apply tripleEntries_fold. intros ? ? [].
Qed.

Lemma mapi_In {A B : Type} (f : A -> nat -> B) (l : list A) (i : nat) (y : B) :
  In y (Parser.mapi f i l) -> exists x j, In x l /\ y = f x j.
Proof.
  revert i. induction l as [|x r IH]; intros i; simpl; [intros []|].
  intros [<-|H].
  - exists x, i. split; [now left|reflexivity].
  - destruct (IH _ H) as [x' [j [Hin Hy]]]. exists x', j.
    split; [now right|exact Hy].
Qed.

Lemma buildFrames_joints (person : option json) (fps : Q) (f : Parser.Frame) :
  In f (Parser.buildFramesFromPerson person fps) ->
  exists J, Parser.joints f = Parser.tripleEntries J.
Proof.
  unfold Parser.buildFramesFromPerson.
  destruct (prop person "joints") as [[| | | |l|]|]; try (intros []).
  destruct (Nat.eqb (List.length l) 0); [intros []|].
  intros H. apply mapi_In in H. destruct H as [J [j [_ ->]]].
  exists J. reflexivity.
Qed.

End TripleFacts.

(** C10: every joint value stored in a frame of a track returned by
    [parseHawkEyeJson] is a 3-element array of finite numbers. *)
Theorem parsed_joints_finite (B : Builtins) (root : option json)
  (t : Parser.ParsedTrack) (f : Parser.Frame) (k : string)
  (v : Parser.Triple)
  (Ht : In t (Parser.parseHawkEyeJson B root))
  (Hf : In f (Parser.frames t))
  (Hk : In (k, v) (Parser.joints f)) :
  FiniteTriple v.
Proof.
  destruct (parsed_track_origin B root t Ht) as [p [_ [Hfr _]]].
  rewrite Hfr in Hf. apply buildFrames_joints in Hf.
  destruct Hf as [J HJ]. rewrite HJ in Hk.
  exact (tripleEntries_finite J k v Hk).
Qed.

(** C10 at the sample document: of the three raw joints only the finite
    triple is stored. *)
Lemma parsed_joints_finite_witness :
  In sampleTrack (Parser.parseHawkEyeJson sampleHost (Some sampleRoot))
  /\ In sampleFrame (Parser.frames sampleTrack)
  /\ FiniteTriple
       [Some (JNum (Fin 1)); Some (JNum (Fin 2)); Some (JNum (Fin 3))].
Proof.
  assert (H : In sampleTrack
                (Parser.parseHawkEyeJson sampleHost (Some sampleRoot)))
    by (vm_compute; left; reflexivity).
  assert (Hf : In sampleFrame (Parser.frames sampleTrack))
    by (left; reflexivity).
  split; [exact H|]. split; [exact Hf|].
  apply (parsed_joints_finite sampleHost (Some sampleRoot) sampleTrack
           sampleFrame "rWrist" _ H Hf).
  left. reflexivity.
Defined.

(* ================================================================== *)
(** * Display smoother (C7) *)

Lemma inheritedKey_proto (k : string) :
  inheritedKey k = false -> String.eqb k "__proto__" = false.
Proof.
  intros H. destruct (String.eqb k "__proto__") eqn:E; [|reflexivity].
  apply String.eqb_eq in E. subst k. discriminate H.
Qed.

Lemma smoothStep_ordinary (st : Joints * Joints) (kp : string * V3) :
  inheritedKey (fst kp) = false ->
  smoothStep (Returned st) kp = Returned (smoothOrdinary st kp).
Proof.
  destruct st as [prev out], kp as [k p]. cbn [fst]. intros H.
  unfold smoothStep, smoothOrdinary, readKey, assignKey.
  rewrite (inheritedKey_proto k H), H.
  destruct (assoc k prev); reflexivity.
Qed.

Lemma smooth_fold_ordinary (l : Joints) (st : Joints * Joints) :
  OrdinaryKeys l ->
  fold_left smoothStep l (Returned st)
  = Returned (fold_left smoothOrdinary l st).
Proof.
  revert st. induction l as [|kp r IH]; intros st Hord; [reflexivity|].
  cbn [fold_left]. rewrite smoothStep_ordinary.
  - apply IH. intros k Hk. apply Hord. now right.
  - apply Hord. now left.
Qed.

Lemma smooth_fold_thrown (l s : Joints) :
  fold_left smoothStep l (Thrown s) = Thrown s.
Proof.
  induction l as [|kp r IH]; [reflexivity|exact IH].
Qed.

Lemma assoc_assignKey_other (o : Joints) (k k0 : string) (v : V3) :
  k0 <> k -> assoc k0 (assignKey o k v) = assoc k0 o.
Proof.
  intros Hne. unfold assignKey.
  destruct (String.eqb k "__proto__"); [reflexivity|].
  now apply assoc_setKey_other.
Qed.

Lemma smooth_fold_inherited (l prev out : Joints) (k : string) :
  In k (map fst l) -> inheritedKey k = true -> assoc k prev = None ->
  exists s, fold_left smoothStep l (Returned (prev, out)) = Thrown s.
Proof.
  revert prev out. induction l as [|[k0 p0] r IH]; intros prev out Hin Hk Hp;
    [contradiction|].
  cbn [fold_left]. unfold smoothStep at 2.
  destruct (String.eqb k k0) eqn:E.
  - apply String.eqb_eq in E. subst k0. unfold readKey. rewrite Hp, Hk.
    exists prev. apply smooth_fold_thrown.
  - assert (Hne : k <> k0)
      by (intros ->; rewrite String.eqb_refl in E; discriminate).
    assert (Hr : In k (map fst r)).
    { destruct Hin as [H|H]; [|exact H]. cbn in H. congruence. }
    destruct (readKey prev k0) as [pv| |].
    + apply IH; [exact Hr|exact Hk|].
      now rewrite assoc_setKey_other.
    + exists prev. apply smooth_fold_thrown.
    + apply IH; [exact Hr|exact Hk|].
      now rewrite assoc_assignKey_other.
Qed.

Lemma smooth_fold_other (l : Joints) (prev out : Joints) (k : string) :
  ~ In k (map fst l) ->
  assoc k (snd (fold_left smoothOrdinary l (prev, out))) = assoc k out.
Proof.
  revert prev out. induction l as [|[k0 p0] r IH]; intros prev out Hk;
    [reflexivity|].
  cbn [fold_left]. simpl in Hk.
  assert (Hne : k <> k0) by (intros ->; apply Hk; now left).
  assert (Hr : ~ In k (map fst r)) by (intros H; apply Hk; now right).
  unfold smoothOrdinary at 2. destruct (assoc k0 prev) as [pv|];
    rewrite IH by exact Hr; now apply assoc_setKey_other.
Qed.

Lemma smooth_fold (l : Joints) (prev out : Joints) (k : string) (p : V3) :
  NoDup (map fst l) -> assoc k l = Some p ->
  assoc k (snd (fold_left smoothOrdinary l (prev, out)))
  = Some (match assoc k prev with
          | Some pv => blend pv p
          | None => p
          end).
Proof.
  revert prev out. induction l as [|[k0 p0] r IH]; intros prev out Hnd Hk;
    [discriminate|].
  inversion Hnd as [|? ? Hnotin Hnd']; subst. cbn [assoc] in Hk.
  cbn [fold_left]. destruct (String.eqb k k0) eqn:E.
  - apply String.eqb_eq in E. subst k0. injection Hk as ->.
    unfold smoothOrdinary at 2. destruct (assoc k prev) as [pv|];
      rewrite smooth_fold_other by exact Hnotin;
      apply assoc_setKey_same.
  - assert (Hne : k <> k0)
      by (intros ->; rewrite String.eqb_refl in E; discriminate).
    unfold smoothOrdinary at 2. destruct (assoc k0 prev) as [pv|];
      rewrite IH by assumption;
      now rewrite assoc_setKey_other by exact Hne.
Qed.

Lemma frameJoints_ordinary (prev rawJ : Joints) :
  OrdinaryKeys rawJ ->
  frameJoints prev rawJ
  = Returned (snd (fold_left smoothOrdinary rawJ (prev, ([] : Joints))),
              snd (fold_left smoothOrdinary rawJ (prev, ([] : Joints)))).
Proof.
  intros Hord. unfold frameJoints. cbv zeta.
  rewrite smooth_fold_ordinary by exact Hord.
  destruct (fold_left smoothOrdinary rawJ (prev, ([] : Joints))) as [p' out].
  reflexivity.
Qed.

(** C7: on a raw frame none of whose joints is named like a member of
    [Object.prototype], the smoother returns for every joint [k],
    componentwise, [previous * (1 - 0.35) + current * 0.35] when a
    smoothed position is stored for [k] and the raw position itself when
    none is, and what it returns is what it stores for the next frame.
    On a raw frame with a joint that is so named and has no stored
    position, the read [prev[k]] finds the inherited member, and the
    smoother throws instead of seeding the joint. *)
Theorem frameJoints_blend (prev rawJ : Joints) (Hwf : WellKeyed rawJ) :
  (OrdinaryKeys rawJ ->
   exists out,
     frameJoints prev rawJ = Returned (out, out)
     /\ forall k p, assoc k rawJ = Some p ->
          assoc k out
          = Some (match assoc k prev with
                  | Some pv =>
                      mkV3 (c0 pv * (1 - (35 # 100)) + c0 p * (35 # 100))
                           (c1 pv * (1 - (35 # 100)) + c1 p * (35 # 100))
                           (c2 pv * (1 - (35 # 100)) + c2 p * (35 # 100))
                  | None => p
                  end))
  /\ (forall k, In k (map fst rawJ) -> inheritedKey k = true ->
                assoc k prev = None ->
                exists s, frameJoints prev rawJ = Thrown s).
Proof.
  split.
  - intros Hord. eexists. split; [apply frameJoints_ordinary; exact Hord|].
    intros k p Hk. exact (smooth_fold rawJ prev [] k p Hwf Hk).
  - intros k Hin Hk Hp.
    destruct (smooth_fold_inherited rawJ prev [] k Hin Hk Hp) as [s Hs].
    exists s. unfold frameJoints. now rewrite Hs.
Qed.

(** C7 at the sample poses: the right wrist has a stored position; and
    at a first frame holding a joint named [constructor]. *)
Lemma frameJoints_blend_witness :
  WellKeyed sampleRawPose
  /\ OrdinaryKeys sampleRawPose
  /\ (exists out,
        frameJoints samplePrevPose sampleRawPose = Returned (out, out)
        /\ assoc "rWrist" out
           = Some (mkV3 (0 * (1 - (35 # 100)) + 1 * (35 # 100))
                        (0 * (1 - (35 # 100)) + 2 * (35 # 100))
                        (0 * (1 - (35 # 100)) + 3 * (35 # 100))))
  /\ WellKeyed constructorPose
  /\ exists s, frameJoints [] constructorPose = Thrown s.
Proof.
  assert (Hwf : WellKeyed sampleRawPose).
  { unfold WellKeyed, sampleRawPose. cbn [map fst].
    repeat constructor; simpl; intuition discriminate. }
  assert (Hord : OrdinaryKeys sampleRawPose).
  { intros k [<-|[<-|[]]]; reflexivity. }
  assert (Hwc : WellKeyed constructorPose).
  { unfold WellKeyed, constructorPose. cbn [map fst].
    repeat constructor; simpl; intuition discriminate. }
  split; [exact Hwf|]. split; [exact Hord|]. split.
  - destruct (proj1 (frameJoints_blend samplePrevPose sampleRawPose Hwf) Hord)
      as [out [Hout Hk]].
    exists out. split; [exact Hout|].
    exact (Hk "rWrist" (mkV3 1 2 3) eq_refl).
  - split; [exact Hwc|].
    apply (proj2 (frameJoints_blend [] constructorPose Hwc) "constructor").
    + right. left. reflexivity.
    + reflexivity.
    + reflexivity.
Defined.

(** The first frame of a track with a joint named [constructor]: the
    right wrist is seeded, then the smoother throws, leaving the seeded
    wrist in the stored map; without that joint the frame is returned
    as it is. *)
Lemma frameJoints_constructor_throws :
  frameJoints [] constructorPose = Thrown [("rWrist", mkV3 1 2 3)]
  /\ frameJoints [] [("rWrist", mkV3 1 2 3)]
     = Returned ([("rWrist", mkV3 1 2 3)], [("rWrist", mkV3 1 2 3)]).
Proof.
  split; reflexivity.
Qed.

(* ================================================================== *)
(** * Release time (C8) *)





(* ================================================================== *)
(** * Angle wrapping *)

Lemma inject_succ (n : nat) :
  inject_Z (Z.of_nat (S n)) == inject_Z (Z.of_nat n) + 1.
Proof.
  rewrite Nat2Z.inj_succ, <- Z.add_1_r, inject_Z_plus. reflexivity.
Qed.

Lemma turns_enough (d : Q) : Qabs d <= 360 * inject_Z (Z.of_nat (turns d)).
Proof.
  unfold turns.
  assert (H0 : 0 <= Qabs d / 360).
  { apply Qle_shift_div_l; [reflexivity|]. rewrite Qmult_0_l.
    apply Qabs_nonneg. }
  assert (Hc : (0 <= Qceiling (Qabs d / 360))%Z).
  { change 0%Z with (Qceiling 0). now apply Qceiling_resp_le. }
  rewrite Z2Nat.id by exact Hc.
  pose proof (Qle_ceiling (Qabs d / 360)) as H.
  assert (E : Qabs d == 360 * (Qabs d / 360)) by (field).
  rewrite E at 1. apply Qmult_le_l; [reflexivity|exact H].
Qed.

Lemma wrapDown_le (fuel : nat) (d : Q) :
  d <= 180 + 360 * inject_Z (Z.of_nat fuel) -> wrapDown fuel d <= 180.
Proof.
  revert d. induction fuel as [|f IH]; intros d H.
  - cbn [wrapDown]. change (inject_Z (Z.of_nat 0)) with 0 in H. lra.
  - cbn [wrapDown]. destruct (Qlt_bool 180 d) eqn:E.
    + apply IH. rewrite inject_succ in H. lra.
    + now apply Qlt_bool_false in E.
Qed.

Lemma wrapDown_ge (fuel : nat) (d : Q) :
  -180 <= d -> -180 <= wrapDown fuel d.
Proof.
  revert d. induction fuel as [|f IH]; intros d H; [exact H|].
  cbn [wrapDown]. destruct (Qlt_bool 180 d) eqn:E; [|exact H].
  apply Qlt_bool_iff in E. apply IH. lra.
Qed.

Lemma wrapDown_id (fuel : nat) (d : Q) : d <= 180 -> wrapDown fuel d = d.
Proof.
  intros H. destruct fuel as [|f]; [reflexivity|]. cbn [wrapDown].
  apply Qlt_bool_false in H. now rewrite H.
Qed.

Lemma wrapDown_below (fuel : nat) (d : Q) : wrapDown fuel d <= d.
Proof.
  revert d. induction fuel as [|f IH]; intros d; [apply Qle_refl|].
  cbn [wrapDown]. destruct (Qlt_bool 180 d); [|apply Qle_refl].
  specialize (IH (d - 360)). lra.
Qed.

Lemma wrapUp_ge (fuel : nat) (d : Q) :
  - 180 - 360 * inject_Z (Z.of_nat fuel) <= d -> -180 <= wrapUp fuel d.
Proof.
  revert d. induction fuel as [|f IH]; intros d H.
  - cbn [wrapUp]. change (inject_Z (Z.of_nat 0)) with 0 in H. lra.
  - cbn [wrapUp]. destruct (Qlt_bool d (-180)) eqn:E.
    + apply IH. rewrite inject_succ in H. lra.
    + now apply Qlt_bool_false in E.
Qed.

Lemma wrapUp_le (fuel : nat) (d : Q) : d <= 180 -> wrapUp fuel d <= 180.
Proof.
  revert d. induction fuel as [|f IH]; intros d H; [exact H|].
  cbn [wrapUp]. destruct (Qlt_bool d (-180)) eqn:E; [|exact H].
  apply Qlt_bool_iff in E. apply IH. lra.
Qed.

Lemma wrapUp_id (fuel : nat) (d : Q) : -180 <= d -> wrapUp fuel d = d.
Proof.
  intros H. destruct fuel as [|f]; [reflexivity|]. cbn [wrapUp].
  apply Qlt_bool_false in H. now rewrite H.
Qed.

Lemma Qabs_bounds (d : Q) : - Qabs d <= d /\ d <= Qabs d.
Proof.
  split.
  - pose proof (Qle_Qabs (- d)) as H. rewrite Qabs_opp in H. lra.
  - apply Qle_Qabs.
Qed.

(** Both loops of [wrap180] run to completion: the result is within
    180 of zero. *)
Lemma wrap180_range (d : Q) : -180 <= wrap180 d /\ wrap180 d <= 180.
Proof.
  unfold wrap180.
  assert (H1 : wrapDown (turns d) d <= 180).
  { apply wrapDown_le. pose proof (turns_enough d).
    pose proof (Qabs_bounds d). lra. }
  split.
  - apply wrapUp_ge. pose proof (turns_enough (wrapDown (turns d) d)).
    pose proof (Qabs_bounds (wrapDown (turns d) d)). lra.
  - now apply wrapUp_le.
Qed.

Lemma wrap180_id (d : Q) : -180 <= d -> d <= 180 -> wrap180 d = d.
Proof.
  intros Hl Hu. unfold wrap180. rewrite (wrapDown_id _ d Hu).
  now apply wrapUp_id.
Qed.

(** Whatever candidate its two loops reach, [unwrapToPrev] hands it to
    [wrap180]: its result never leaves the principal interval. *)
Lemma unwrapToPrev_range (newDeg prevDeg : Q) :
  -180 <= unwrapToPrev newDeg prevDeg /\ unwrapToPrev newDeg prevDeg <= 180.
Proof.
  unfold unwrapToPrev. apply wrap180_range.
Qed.

Lemma towardUp_id (fuel : nat) (p c : Q) :
  p - c <= 180 -> towardUp fuel p c = c.
Proof.
  intros H. destruct fuel as [|f]; [reflexivity|]. cbn [towardUp].
  apply Qlt_bool_false in H. now rewrite H.
Qed.

Lemma towardDown_id (fuel : nat) (p c : Q) :
  c - p <= 180 -> towardDown fuel p c = c.
Proof.
  intros H. destruct fuel as [|f]; [reflexivity|]. cbn [towardDown].
  apply Qlt_bool_false in H. now rewrite H.
Qed.

Lemma unwrapToPrev_self (d : Q) : unwrapToPrev d d = wrap180 d.
Proof.
  unfold unwrapToPrev, unwrapCandidate. cbv zeta.
  rewrite towardUp_id by lra. rewrite towardDown_id by lra. reflexivity.
Qed.

Lemma towardUp_done (fuel : nat) (p c : Q) :
  p - c <= 180 + 360 * inject_Z (Z.of_nat fuel) ->
  p - towardUp fuel p c <= 180.
Proof.
  revert c. induction fuel as [|f IH]; intros c H.
  - cbn [towardUp]. change (inject_Z (Z.of_nat 0)) with 0 in H. lra.
  - cbn [towardUp]. destruct (Qlt_bool 180 (p - c)) eqn:E.
    + apply IH. rewrite inject_succ in H. lra.
    + now apply Qlt_bool_false in E.
Qed.

Lemma towardDown_done (fuel : nat) (p c : Q) :
  c - p <= 180 + 360 * inject_Z (Z.of_nat fuel) ->
  towardDown fuel p c - p <= 180.
Proof.
  revert c. induction fuel as [|f IH]; intros c H.
  - cbn [towardDown]. change (inject_Z (Z.of_nat 0)) with 0 in H. lra.
  - cbn [towardDown]. destruct (Qlt_bool 180 (c - p)) eqn:E.
    + apply IH. rewrite inject_succ in H. lra.
    + now apply Qlt_bool_false in E.
Qed.

Lemma towardDown_below (fuel : nat) (p c : Q) :
  p - c <= 180 -> p - towardDown fuel p c <= 180.
Proof.
  revert c. induction fuel as [|f IH]; intros c H; [exact H|].
  cbn [towardDown]. destruct (Qlt_bool 180 (c - p)) eqn:E; [|exact H].
  apply Qlt_bool_iff in E. apply IH. lra.
Qed.

(** The two loops of [unwrapToPrev] do reach a candidate within half a
    turn of the previous value. *)
Lemma unwrapCandidate_near (newDeg prevDeg : Q) :
  Qabs (unwrapCandidate newDeg prevDeg - prevDeg) <= 180.
Proof.
  unfold unwrapCandidate. cbv zeta.
  set (c1 := towardUp (turns (prevDeg - newDeg)) prevDeg newDeg).
  assert (H1 : prevDeg - c1 <= 180).
  { apply towardUp_done. pose proof (turns_enough (prevDeg - newDeg)).
    pose proof (Qabs_bounds (prevDeg - newDeg)). lra. }
  assert (H2 : towardDown (turns (c1 - prevDeg)) prevDeg c1 - prevDeg <= 180).
  { apply towardDown_done. pose proof (turns_enough (c1 - prevDeg)).
    pose proof (Qabs_bounds (c1 - prevDeg)). lra. }
  pose proof (towardDown_below (turns (c1 - prevDeg)) prevDeg c1 H1) as H3.
  apply Qabs_Qle_condition. split; lra.
Qed.

(* ================================================================== *)
(** * Trunk rotation: series against engine (C3, C4) *)

Section TrunkSeries.
Variable M : MathLib.
Variable flipHome : bool.

Lemma lastDefined_snoc (l : list (option Q)) (o : option Q) :
  lastDefined (l ++ [o])
  = match o with Some x => Some x | None => lastDefined l end.
Proof.
  induction l as [|a r IH]; simpl.
  - destruct o; reflexivity.
  - rewrite IH. destruct o; [reflexivity|]. reflexivity.
Qed.

(** The loop state of [biomech]: [prevTrunk] is the last available value
    written to the series. *)
Lemma biomech_state (frames : list Frame) :
  fst (fold_left (biomechTrunkStep M flipHome) frames (None, []))
  = lastDefined (biomechTrunkRot M flipHome frames).
Proof.
  unfold biomechTrunkRot.
  induction frames as [|f fs IH] using rev_ind; [reflexivity|].
  rewrite fold_left_app. cbn [fold_left].
  destruct (fold_left (biomechTrunkStep M flipHome) fs (None, []))
    as [p S].
  cbn [fst snd] in IH. subst p. unfold biomechTrunkStep.
  destruct (rawTrunkYaw M flipHome (joints f)) as [raw|]; cbn [fst snd];
    rewrite lastDefined_snoc; reflexivity.
Qed.

Lemma biomech_snoc (fs : list Frame) (f : Frame) :
  biomechTrunkRot M flipHome (fs ++ [f])
  = (biomechTrunkRot M flipHome fs
     ++ [seriesEntry (rawTrunkYaw M flipHome (joints f))
                     (lastDefined (biomechTrunkRot M flipHome fs))])%list.
Proof.
  pose proof (biomech_state fs) as H. unfold biomechTrunkRot in *.
  rewrite fold_left_app. cbn [fold_left].
  destruct (fold_left (biomechTrunkStep M flipHome) fs (None, []))
    as [p S].
  cbn [fst snd] in *. subst p. unfold biomechTrunkStep, seriesEntry.
  destruct (rawTrunkYaw M flipHome (joints f)) as [raw|]; reflexivity.
Qed.

Lemma biomech_length (frames : list Frame) :
  List.length (biomechTrunkRot M flipHome frames) = List.length frames.
Proof.
  induction frames as [|f fs IH] using rev_ind; [reflexivity|].
  rewrite biomech_snoc, !length_app, IH. reflexivity.
Qed.

Lemma biomech_range (frames : list Frame) (v : Q) :
  In (Some v) (biomechTrunkRot M flipHome frames) -> -180 <= v /\ v <= 180.
Proof.
  induction frames as [|f fs IH] using rev_ind; [intros []|].
  rewrite biomech_snoc, in_app_iff. intros [H|[H|[]]]; [now apply IH|].
  unfold seriesEntry in H.
  destruct (rawTrunkYaw M flipHome (joints f)); [|discriminate].
  injection H as <-. apply unwrapToPrev_range.
Qed.

Lemma biomech_acc (fs : list Frame) (p : option Q) (acc : list (option Q)) :
  snd (fold_left (biomechTrunkStep M flipHome) fs (p, acc))
  = (acc ++ snd (fold_left (biomechTrunkStep M flipHome) fs (p, [])))%list.
Proof.
  revert p acc. induction fs as [|f r IH]; intros p acc.
  - cbn. now rewrite app_nil_r.
  - cbn [fold_left]. unfold biomechTrunkStep at 2 4.
    destruct (rawTrunkYaw M flipHome (joints f)) as [raw|];
      rewrite IH; symmetry; rewrite IH; now rewrite app_assoc.
Qed.

Lemma metrics_trunk (bodyHeight prev : option Q) (J : Joints) :
  trunkRotDeg (fst (metrics M bodyHeight flipHome prev J))
  = fst (trunkRotation M flipHome prev J)
  /\ snd (metrics M bodyHeight flipHome prev J)
     = snd (trunkRotation M flipHome prev J).
Proof.
  unfold metrics. destruct (trunkRotation M flipHome prev J). now split.
Qed.

Lemma engine_acc (bodyHeight : option Q) (fs : list Frame) (p : option Q)
  (acc : list Metrics) :
  snd (fold_left (engineStep M bodyHeight flipHome) fs (p, acc))
  = (acc
     ++ snd (fold_left (engineStep M bodyHeight flipHome) fs (p, [])))%list.
Proof.
  revert p acc. induction fs as [|f r IH]; intros p acc.
  - cbn. now rewrite app_nil_r.
  - cbn [fold_left]. unfold engineStep at 2 4. cbn [fst snd].
    destruct (metrics M bodyHeight flipHome p (joints f)) as [m p'].
    rewrite IH; symmetry; rewrite IH; now rewrite app_assoc.
Qed.

Lemma series_engine_first (bodyHeight : option Q) (f : Frame)
  (fs : list Frame) :
  nth_error (biomechTrunkRot M flipHome (f :: fs)) 0
  = nth_error
      (map trunkRotDeg (engineRun M bodyHeight flipHome (f :: fs))) 0.
Proof.
  unfold biomechTrunkRot, engineRun. cbn [fold_left].
  unfold biomechTrunkStep at 2. unfold engineStep at 2. cbn [fst snd].
  pose proof (metrics_trunk bodyHeight None (joints f)) as [Ht _].
  destruct (metrics M bodyHeight flipHome None (joints f)) as [m p'].
  cbn [fst] in Ht. rewrite engine_acc. cbn [app map nth_error]. rewrite Ht.
  unfold trunkRotation.
  destruct (rawTrunkYaw M flipHome (joints f)) as [raw|]; rewrite biomech_acc;
    cbn [app nth_error fst]; [|reflexivity].
  now rewrite unwrapToPrev_self.
Qed.

End TrunkSeries.

(** C3, as the code has it: the trunk series has one entry per frame;
    the entry of a frame is its wrapped raw yaw passed through
    [unwrapToPrev] against the last available series value (against
    itself when there is none), with no 0.7/0.3 smoothing; and the entry
    of frame 0 is the value the per-frame engine reports at frame 0
    after a reset. *)
Theorem biomechTrunkRot_unsmoothed (M : MathLib) (flipHome : bool)
  (bodyHeight : option Q) (fs : list Frame) (f : Frame) :
  List.length (biomechTrunkRot M flipHome (fs ++ [f]))
  = List.length (fs ++ [f])
  /\ biomechTrunkRot M flipHome (fs ++ [f])
     = (biomechTrunkRot M flipHome fs
        ++ [seriesEntry (rawTrunkYaw M flipHome (joints f))
                        (lastDefined (biomechTrunkRot M flipHome fs))])%list
  /\ nth_error (biomechTrunkRot M flipHome (fs ++ [f])) 0
     = nth_error
         (map trunkRotDeg (engineRun M bodyHeight flipHome (fs ++ [f]))) 0.
Proof.
  split; [apply biomech_length|]. split; [apply biomech_snoc|].
  destruct fs as [|g gs]; cbn [app]; apply series_engine_first.
Qed.

(** On the quarter-turn track (raw yaw 0, then 90) the series holds 90
    at index 1, while the engine stepped from frame 0 over the same raw
    joints reports 0.7 * 0 + 0.3 * 90 = 27. *)
Lemma biomech_differs_from_engine :
  exists a b : Q,
    nth_error (biomechTrunkRot axisMath false quarterTurnTrack) 1
    = Some (Some a)
    /\ nth_error
         (map trunkRotDeg (engineRun axisMath None false quarterTurnTrack)) 1
       = Some (Some b)
    /\ a == 90 /\ b == 27 /\ ~ a == b.
Proof.
  do 2 eexists.
  split; [vm_compute; reflexivity|].
  split; [vm_compute; reflexivity|].
  repeat split; try reflexivity. intros H. discriminate H.
Qed.


(* ================================================================== *)
(** * Hand detection (C5) *)

Section Handedness.
Variable A : Arith.

Lemma wristLoop_fold (frames : list Frame) (idxs : list nat)
  (rx lx : jsnum) (rc lc : Z) :
  fold_left (wristStep A frames) idxs (rx, lx, rc, lc)
  = (fold_left (fl_add A) (displacements A SideR frames idxs) rx,
     fold_left (fl_add A) (displacements A SideL frames idxs) lx,
     (rc + Z.of_nat (List.length (displacements A SideR frames idxs)))%Z,
     (lc + Z.of_nat (List.length (displacements A SideL frames idxs)))%Z).
Proof.
  revert rx lx rc lc. induction idxs as [|i r IH]; intros rx lx rc lc.
  - cbn. now rewrite !Z.add_0_r.
  - cbn [fold_left]. unfold wristStep at 2. unfold displacements.
    cbn [flat_map]. fold (displacements A SideR frames r).
    fold (displacements A SideL frames r).
    destruct (firstOf (wristKeys SideR) (jointsAt frames (i - 1)))
      as [r0|];
      destruct (firstOf (wristKeys SideR) (jointsAt frames i)) as [r1|];
      destruct (firstOf (wristKeys SideL) (jointsAt frames (i - 1)))
        as [l0|];
      destruct (firstOf (wristKeys SideL) (jointsAt frames i)) as [l1|];
      rewrite IH; cbn [app fold_left List.length];
      repeat match goal with |- (_, _) = (_, _) => f_equal end;
      try reflexivity; lia.
Qed.

Lemma wristLoop_spec (frames : list Frame) :
  wristLoop A frames
  = (netDisplacement A SideR frames, netDisplacement A SideL frames,
     pairCount A SideR frames, pairCount A SideL frames).
Proof.
  unfold wristLoop. cbv zeta. fold (lastQuarter frames).
  rewrite wristLoop_fold. reflexivity.
Qed.

Lemma wristDrift_spec (frames : list Frame) :
  wristDrift A frames
  = (meanDisplacement A SideR frames, meanDisplacement A SideL frames).
Proof.
  unfold wristDrift. rewrite wristLoop_spec. reflexivity.
Qed.

Lemma detectHandedness_mean (frames : list Frame) :
  detectHandedness A frames
  = if num_ltb (meanDisplacement A SideR frames)
               (meanDisplacement A SideL frames) then HandR
    else if num_ltb (meanDisplacement A SideL frames)
                    (meanDisplacement A SideR frames) then HandL
    else HandUnknown.
Proof.
  destruct frames as [|f fs]; [reflexivity|].
  unfold detectHandedness. rewrite wristDrift_spec. reflexivity.
Qed.

(** *** Exchanging the wrists *)

Lemma swapKey_invol (k : string) : swapKey (swapKey k) = k.
Proof.
  unfold swapKey.
  destruct (String.eqb k "rWrist") eqn:E1;
    [apply String.eqb_eq in E1; now subst|].
  destruct (String.eqb k "lWrist") eqn:E2;
    [apply String.eqb_eq in E2; now subst|].
  destruct (String.eqb k "rightWrist") eqn:E3;
    [apply String.eqb_eq in E3; now subst|].
  destruct (String.eqb k "leftWrist") eqn:E4;
    [apply String.eqb_eq in E4; now subst|].
  now rewrite E1, E2, E3, E4.
Qed.

Lemma swapKey_eqb (k k' : string) :
  String.eqb (swapKey k) (swapKey k') = String.eqb k k'.
Proof.
  destruct (String.eqb k k') eqn:E.
  - apply String.eqb_eq in E. subst. apply String.eqb_refl.
  - apply String.eqb_neq in E. apply String.eqb_neq. intros H.
    apply E. rewrite <- (swapKey_invol k), H. apply swapKey_invol.
Qed.

Lemma assoc_swapWrists (k : string) (J : Joints) :
  assoc (swapKey k) (swapWrists J) = assoc k J.
Proof.
  induction J as [|[k' v] r IH]; [reflexivity|].
  cbn [swapWrists map fst snd assoc]. fold (swapWrists r).
  rewrite swapKey_eqb, IH. reflexivity.
Qed.

Lemma wrist_swapWrists (s : Side) (J : Joints) :
  firstOf (wristKeys s) (swapWrists J) = firstOf (wristKeys (otherSide s)) J.
Proof.
  destruct s; cbn [wristKeys otherSide firstOf].
  - rewrite <- (assoc_swapWrists "lWrist" J).
    rewrite <- (assoc_swapWrists "leftWrist" J). reflexivity.
  - rewrite <- (assoc_swapWrists "rWrist" J).
    rewrite <- (assoc_swapWrists "rightWrist" J). reflexivity.
Qed.

Lemma jointsAt_swapTrack (frames : list Frame) (i : nat) :
  jointsAt (swapTrack frames) i = swapWrists (jointsAt frames i).
Proof.
  unfold jointsAt, swapTrack. rewrite nth_error_map.
  destruct (nth_error frames i); reflexivity.
Qed.

Lemma displacements_swapTrack (s : Side) (frames : list Frame)
  (idxs : list nat) :
  displacements A s (swapTrack frames) idxs
  = displacements A (otherSide s) frames idxs.
Proof.
  unfold displacements. induction idxs as [|i r IH]; [reflexivity|].
  cbn [flat_map]. rewrite IH, !jointsAt_swapTrack, !wrist_swapWrists.
  reflexivity.
Qed.

Lemma lastQuarter_swapTrack (frames : list Frame) :
  lastQuarter (swapTrack frames) = lastQuarter frames.
Proof.
  unfold lastQuarter, swapTrack. now rewrite length_map.
Qed.

Lemma meanDisplacement_swapTrack (s : Side) (frames : list Frame) :
  meanDisplacement A s (swapTrack frames)
  = meanDisplacement A (otherSide s) frames.
Proof.
  unfold meanDisplacement, pairCount, netDisplacement.
  now rewrite lastQuarter_swapTrack, displacements_swapTrack.
Qed.

Lemma detectHandedness_swap (frames : list Frame) :
  detectHandedness A (swapTrack frames)
  = flipHand (detectHandedness A frames).
Proof.
  rewrite !detectHandedness_mean, !meanDisplacement_swapTrack.
  cbn [otherSide].
  destruct (num_ltb (meanDisplacement A SideL frames)
                    (meanDisplacement A SideR frames)) eqn:E1;
    destruct (num_ltb (meanDisplacement A SideR frames)
                      (meanDisplacement A SideL frames)) eqn:E2;
    try reflexivity.
  apply num_ltb_asym in E1. congruence.
Qed.

End Handedness.

(** C5, as the code has it: hand detection adds up, over the last
    quarter of the frames and in frame order, each wrist's frame-to-frame
    x displacement and divides the sum by the number of frame pairs
    counted for that wrist (0 when none is), all in the arithmetic of
    the host.  It returns "R" exactly when the mean so computed for the
    right wrist is less than the one for the left wrist, "L" exactly
    when the left one is less, and "?" exactly when neither is, as when
    the two computed means are the same number.  Exchanging the wrists
    turns "R" into "L" and back. *)
Theorem detectHandedness_mean_displacement (A : Arith) (frames : list Frame) :
  (detectHandedness A frames = HandR
   <-> Below (meanDisplacement A SideR frames)
             (meanDisplacement A SideL frames))
  /\ (detectHandedness A frames = HandL
      <-> Below (meanDisplacement A SideL frames)
                (meanDisplacement A SideR frames))
  /\ (detectHandedness A frames = HandUnknown
      <-> ~ Below (meanDisplacement A SideR frames)
                  (meanDisplacement A SideL frames)
          /\ ~ Below (meanDisplacement A SideL frames)
                     (meanDisplacement A SideR frames))
  /\ (forall r l : Q,
        meanDisplacement A SideR frames = Fin r ->
        meanDisplacement A SideL frames = Fin l ->
        r == l -> detectHandedness A frames = HandUnknown)
  /\ detectHandedness A (swapTrack frames)
     = flipHand (detectHandedness A frames).
Proof.
  unfold Below. rewrite detectHandedness_mean.
  destruct (num_ltb (meanDisplacement A SideR frames)
                    (meanDisplacement A SideL frames)) eqn:E1.
  - pose proof (num_ltb_asym _ _ E1) as E2. rewrite E2.
    split; [tauto|]. split; [split; discriminate|].
    split; [split; [discriminate|intros [H _]; now elim H]|].
    split; [|rewrite detectHandedness_swap, detectHandedness_mean, E1;
             reflexivity].
    intros r l Hr Hl Hrl. rewrite Hr, Hl in E1. cbn in E1.
    apply Qlt_bool_iff in E1. rewrite Hrl in E1.
    exfalso. now apply (Qlt_irrefl l).
  - destruct (num_ltb (meanDisplacement A SideL frames)
                      (meanDisplacement A SideR frames)) eqn:E2.
    + split; [split; discriminate|]. split; [tauto|].
      split; [split; [discriminate|intros [_ H]; now elim H]|].
      split; [|rewrite detectHandedness_swap, detectHandedness_mean, E1, E2;
               reflexivity].
      intros r l Hr Hl Hrl. rewrite Hr, Hl in E2. cbn in E2.
      apply Qlt_bool_iff in E2. rewrite Hrl in E2.
      exfalso. now apply (Qlt_irrefl l).
    + split; [split; discriminate|]. split; [split; discriminate|].
      split; [split; [intros _; split; discriminate|reflexivity]|].
      split; [reflexivity|].
      rewrite detectHandedness_swap, detectHandedness_mean, E1, E2.
      reflexivity.
Qed.

(** C5 at the even track, in double arithmetic: both means are numbers,
    the right one is -2 and the left one -1. *)
Lemma detectHandedness_mean_displacement_witness :
  meanDisplacement binary64 SideR evenTrack = Fin (-2)
  /\ meanDisplacement binary64 SideL evenTrack = Fin (-1)
  /\ detectHandedness binary64 evenTrack = HandR
  /\ detectHandedness binary64 (swapTrack evenTrack) = HandL.
Proof.
  destruct (detectHandedness_mean_displacement binary64 evenTrack)
    as [HR [_ [_ [_ Hswap]]]].
  assert (Hr : detectHandedness binary64 evenTrack = HandR)
    by (apply HR; vm_compute; reflexivity).
  split; [vm_compute; reflexivity|]. split; [vm_compute; reflexivity|].
  split; [exact Hr|]. rewrite Hswap, Hr. reflexivity.
Defined.

(** On the uneven track, in double arithmetic, the right wrist has the
    more negative net displacement (-3 against -2), yet the result is
    "L": the left wrist is counted over one pair only, so its mean is -2
    against -1.5. *)
Lemma detectHandedness_uneven_counts :
  netDisplacement binary64 SideR unevenTrack = Fin (-3)
  /\ netDisplacement binary64 SideL unevenTrack = Fin (-2)
  /\ Below (netDisplacement binary64 SideR unevenTrack)
           (netDisplacement binary64 SideL unevenTrack)
  /\ detectHandedness binary64 unevenTrack = HandL
  /\ detectHandedness binary64 unevenTrack <> HandR.
Proof.
  repeat split; try (vm_compute; reflexivity). vm_compute. discriminate.
Qed.

(** Rounding decides: on the tie track both wrists end 0.9 nearer to
    home, so the exact means are equal; in double arithmetic the left
    sum, accumulated in three steps, comes out one unit in the last
    place below the right one, and the result is "L". *)
Lemma detectHandedness_rounding :
  detectHandedness binary64 tieTrack = HandL
  /\ detectHandedness exactArith tieTrack = HandUnknown.
Proof.
  split; vm_compute; reflexivity.
Qed.

(* ================================================================== *)
(** * Event detection (C2) *)

Lemma fold_left_invariant {S A : Type} (step : S -> A -> S) (P : S -> Prop)
  (l : list A) (init : S) :
  P init -> (forall st a, P st -> In a l -> P (step st a)) ->
  P (fold_left step l init).
Proof.
  revert init. induction l as [|a r IH]; intros init H0 Hstep; [exact H0|].
  cbn [fold_left]. apply IH.
  - apply Hstep; [exact H0|now left].
  - intros st b Hst Hb. apply Hstep; [exact Hst|now right].
Qed.

Lemma fold_left_pointwise {S A : Type} (f g : S -> A -> S) (l : list A)
  (init : S) :
  (forall st a, f st a = g st a) -> fold_left f l init = fold_left g l init.
Proof.
  intros H. revert init. induction l as [|a r IH]; intros init; [reflexivity|].
  cbn [fold_left]. now rewrite H, IH.
Qed.

Lemma seq_from (a n : nat) : seq a n = map (fun d => (a + d)%nat) (seq 0 n).
Proof.
  revert a. induction n as [|n IH]; intros a; [reflexivity|].
  cbn [seq map]. rewrite Nat.add_0_r. f_equal.
  rewrite (IH (S a)), (IH 1%nat), map_map. apply map_ext. intros d. lia.
Qed.

Lemma Some_inj {A : Type} (a b : A) : Some a = Some b -> a = b.
Proof. congruence. Qed.

Lemma zrange_In (lo hi i : Z) : In i (zrange lo hi) -> (lo <= i <= hi)%Z.
Proof.
  unfold zrange. rewrite in_map_iff. intros [d [<- Hd]].
  apply in_seq in Hd. lia.
Qed.

(** ** Loops that keep the best candidate *)

Section ScanFacts.
Variable better : jsnum -> jsnum -> bool.
Hypothesis better_irrefl : forall a, better a a = false.
Hypothesis better_trans :
  forall a b c, better a b = true -> better b c = true -> better a c = true.
Hypothesis better_pass :
  forall a s j, better a s = true -> better j s = false ->
                isNaN j = false -> better a j = true.
Variables B X : Type.
Variable found : X -> B.
Variable elig : X -> bool.
Variable sc : X -> jsnum.
Variable x : nat -> X.

Lemma better_not_beaten (a b s : jsnum) :
  better a s = true -> better b s = false -> better b a = false.
Proof.
  intros Ha Hb. destruct (better b a) eqn:E; [|reflexivity].
  rewrite (better_trans _ _ _ E Ha) in Hb. discriminate.
Qed.

Lemma scan_fold (init : B * jsnum) (m : nat) :
  ScanInv better found elig sc x init m
    (fold_left (scanStep better found elig sc) (map x (seq 0 m)) init).
Proof.
  induction m as [|m IH].
  - left. split; [reflexivity|]. intros d Hd. lia.
  - rewrite seq_S, map_app, fold_left_app. cbn [fold_left map Nat.add].
    set (st := fold_left _ (map x (seq 0 m)) init) in *. clearbody st.
    unfold scanStep. destruct (elig (x m)) eqn:Ee; cbn [andb].
    + destruct IH as [[-> Hall]|[d0 [Hd0 [He0 [-> [Htop [Hbest Hfirst]]]]]]].
      * destruct (better (sc (x m)) (snd init)) eqn:Eb.
        -- right. exists m. split; [lia|]. split; [exact Ee|].
           split; [reflexivity|]. split; [exact Eb|]. split.
           ++ intros d Hd Hed.
              destruct (Nat.eq_dec d m) as [->|Hne]; [apply better_irrefl|].
              apply (better_not_beaten _ _ (snd init)); [exact Eb|].
              apply Hall; [lia|exact Hed].
           ++ intros d Hd Hed.
              destruct (isNaN (sc (x d))) eqn:En; [now left|right].
              apply (better_pass _ (snd init)); [exact Eb| |exact En].
              apply Hall; [lia|exact Hed].
        -- left. split; [reflexivity|]. intros d Hd Hed.
           destruct (Nat.eq_dec d m) as [->|Hne]; [exact Eb|].
           apply Hall; [lia|exact Hed].
      * cbn [snd]. destruct (better (sc (x m)) (sc (x d0))) eqn:Eb.
        -- right. exists m. split; [lia|]. split; [exact Ee|].
           split; [reflexivity|].
           split; [exact (better_trans _ _ _ Eb Htop)|]. split.
           ++ intros d Hd Hed.
              destruct (Nat.eq_dec d m) as [->|Hne]; [apply better_irrefl|].
              apply (better_not_beaten _ _ (sc (x d0))); [exact Eb|].
              apply Hbest; [lia|exact Hed].
           ++ intros d Hd Hed.
              destruct (isNaN (sc (x d))) eqn:En; [now left|right].
              apply (better_pass _ (sc (x d0))); [exact Eb| |exact En].
              apply Hbest; [lia|exact Hed].
        -- right. exists d0. split; [lia|]. split; [exact He0|].
           split; [reflexivity|]. split; [exact Htop|].
           split; [|exact Hfirst]. intros d Hd Hed.
           destruct (Nat.eq_dec d m) as [->|Hne]; [exact Eb|].
           apply Hbest; [lia|exact Hed].
    + destruct IH as [[-> Hall]|[d0 [Hd0 [He0 [-> [Htop [Hbest Hfirst]]]]]]].
      * left. split; [reflexivity|]. intros d Hd Hed.
        destruct (Nat.eq_dec d m) as [->|Hne]; [congruence|].
        apply Hall; [lia|exact Hed].
      * right. exists d0. split; [lia|]. split; [exact He0|].
        split; [reflexivity|]. split; [exact Htop|].
        split; [|exact Hfirst]. intros d Hd Hed.
        destruct (Nat.eq_dec d m) as [->|Hne]; [congruence|].
        apply Hbest; [lia|exact Hed].
Qed.

End ScanFacts.

Lemma num_gtb_irrefl (a : jsnum) : num_gtb a a = false.
Proof. apply num_ltb_irrefl. Qed.

Lemma num_gtb_trans (a b c : jsnum) :
  num_gtb a b = true -> num_gtb b c = true -> num_gtb a c = true.
Proof.
  unfold num_gtb. intros H1 H2. exact (num_ltb_trans _ _ _ H2 H1).
Qed.

Lemma num_gtb_better_pass (a s j : jsnum) :
  num_gtb a s = true -> num_gtb j s = false -> isNaN j = false ->
  num_gtb a j = true.
Proof.
  unfold num_gtb. apply num_gtb_pass.
Qed.

(** Nothing is below a score that is itself not below [Infinity], among
    scores none of which is. *)
Lemma not_below_top (a b : jsnum) :
  num_ltb a PosInf = false -> num_ltb b PosInf = false ->
  num_ltb b a = false.
Proof.
  destruct a as [x| | |], b as [y| | |]; cbn; intros; congruence.
Qed.

Section Detection.
Variable A : Arith.
Variable L : FloatLib.

Lemma carry_length {T : Type} (last : T) (l : list (option T)) :
  List.length (carry last l) = List.length l.
Proof.
  revert last. induction l as [|o r IH]; intros last; [reflexivity|].
  cbn [carry List.length]. now rewrite IH.
Qed.

Lemma coordSeries_length (pick : Joints -> option V3) (c : V3 -> Q)
  (frames : list Frame) :
  List.length (coordSeries pick c frames) = List.length frames.
Proof.
  unfold coordSeries. now rewrite carry_length, length_map.
Qed.

Lemma finiteDiff_length (vals ts : list jsnum) :
  List.length (finiteDiff A vals ts) = List.length vals.
Proof.
  unfold finiteDiff. now rewrite length_map, length_seq.
Qed.

Lemma movingAvg_length (a : list jsnum) (k : nat) :
  List.length (movingAvg A a k) = List.length a.
Proof.
  unfold movingAvg. destruct (k <=? 1)%nat; [reflexivity|].
  now rewrite length_map, length_seq.
Qed.

(** The loop of [indexFromTime]. *)
Lemma nearest_scan (frames : list Frame) (t : jsnum) (m : nat) :
  ScanInv num_ltb (fun i : nat => i) (fun _ => true) (timeError A frames t)
          (fun d => d) (0%nat, PosInf) m
          (fold_left (nearStep A frames t) (seq 0 m) (0%nat, PosInf)).
Proof.
  rewrite <- (map_id (seq 0 m)) at 1.
  exact (scan_fold num_ltb num_ltb_irrefl num_ltb_trans num_ltb_pass
           nat nat (fun i => i) (fun _ => true) (timeError A frames t)
           (fun d => d) (0%nat, PosInf) m).
Qed.

Lemma indexFromTime_fold (frames : list Frame) (t : option jsnum) (i : nat) :
  indexFromTime A frames t = Some i ->
  exists t0, t = Some t0
    /\ i = fst (fold_left (nearStep A frames t0)
                          (seq 0 (List.length frames)) (0%nat, PosInf))
    /\ (0 < List.length frames)%nat.
Proof.
  unfold indexFromTime. destruct frames as [|f fs]; [discriminate|].
  destruct t as [t0|]; [|discriminate]. intros H. exists t0.
  split; [reflexivity|]. apply Some_inj in H. split; [now symmetry|].
  cbn. lia.
Qed.

Lemma indexFromTime_bound (frames : list Frame) (t : option jsnum) (i : nat) :
  indexFromTime A frames t = Some i -> (i < List.length frames)%nat.
Proof.
  intros H. destruct (indexFromTime_fold frames t i H) as [t0 [_ [-> Hne]]].
  apply (fold_left_invariant _ (fun st => (fst st < List.length frames)%nat)).
  - exact Hne.
  - intros st a Hst Ha. apply in_seq in Ha. unfold nearStep. cbv zeta.
    destruct (num_ltb _ (snd st)); [cbn [fst]; lia|exact Hst].
Qed.

Lemma minVxIndex_bound (Vx : list jsnum) :
  Vx <> [] -> (minVxIndex A Vx < List.length Vx)%nat.
Proof.
  intros Hne. unfold minVxIndex.
  apply (fold_left_invariant _ (fun st => (fst st < List.length Vx)%nat)
           (seq 1 (List.length Vx - 1)) (0%nat, lit A 1000000000)).
  - destruct Vx; [contradiction|cbn; lia].
  - intros st a Hst Ha. apply in_seq in Ha.
    destruct (num_ltb _ (snd st)); [cbn [fst]; lia|exact Hst].
Qed.

Lemma findBallRelease_bound (frames : list Frame) (hand : Hand)
  (rel : option jsnum) (i : nat) :
  findBallRelease A L frames hand rel = Some i ->
  (i < List.length frames)%nat.
Proof.
  unfold findBallRelease. destruct frames as [|f fs]; [discriminate|].
  set (frames := f :: fs). cbv zeta.
  set (Vx := movingAvg A (finiteDiff A (map Fin (coordSeries _ c0 frames)) _)
                       3).
  assert (HVx : List.length Vx = List.length frames).
  { unfold Vx. now rewrite movingAvg_length, finiteDiff_length, length_map,
                 coordSeries_length. }
  set (seed := match match rel with
                     | Some _ => indexFromTime A frames rel
                     | None => None
                     end with
               | Some i => i
               | None => minVxIndex A Vx
               end).
  assert (Hseed : (seed < List.length frames)%nat).
  { unfold seed. destruct rel as [t|].
    - destruct (indexFromTime A frames (Some t)) as [j|] eqn:E.
      + now apply indexFromTime_bound in E.
      + rewrite <- HVx. apply minVxIndex_bound.
        intros H. rewrite H in HVx. discriminate.
    - rewrite <- HVx. apply minVxIndex_bound.
      intros H. rewrite H in HVx. discriminate. }
  intros H. apply Some_inj in H. rewrite <- H.
  apply (fold_left_invariant _
           (fun st => (fst st < List.length frames)%nat)).
  - exact Hseed.
  - intros st a Hst Ha. apply zrange_In in Ha. unfold releaseStep. cbv zeta.
    destruct (num_ltb (snd st) _); [cbn [fst]|exact Hst]. lia.
Qed.

(** The scoring loop of [findFootStrike]. *)
Lemma footStep_scan (Y : list Q) (Vy Vh dYaw : list jsnum)
  (st : option nat * jsnum) (i : nat) :
  footStep A Y Vy Vh dYaw st i
  = scanStep num_ltb (@Some nat) (localMinAt Y) (stepScore A Y Vy Vh dYaw)
             st i.
Proof.
  unfold footStep, scanStep. cbv zeta.
  destruct (localMinAt Y i); reflexivity.
Qed.

Lemma foot_scan (Y : list Q) (Vy Vh dYaw : list jsnum) (m : nat) :
  ScanInv num_ltb (@Some nat) (localMinAt Y) (stepScore A Y Vy Vh dYaw)
          (fun d => (2 + d)%nat) (None, PosInf) m
          (fold_left (footStep A Y Vy Vh dYaw) (seq 2 m) (None, PosInf)).
Proof.
  rewrite (fold_left_pointwise _ _ _ _ (footStep_scan Y Vy Vh dYaw)).
  rewrite seq_from.
  exact (scan_fold num_ltb num_ltb_irrefl num_ltb_trans num_ltb_pass
           (option nat) nat (@Some nat) (localMinAt Y)
           (stepScore A Y Vy Vh dYaw) (fun d => (2 + d)%nat)
           (None, PosInf) m).
Qed.

(** What [findFootStrike] returns, in terms of the height series and of
    the scores. *)
Lemma findFootStrike_scan (frames : list Frame) (hand : Hand) :
  frames <> [] ->
  exists st,
    fst st = findFootStrike A L frames hand
    /\ ScanInv num_ltb (@Some nat) (localMinAt (leadAnkleY frames hand))
               (footScore A L frames hand) (fun d => (2 + d)%nat)
               (None, PosInf) (List.length frames - 4) st.
Proof.
  intros Hne. destruct frames as [|f fs]; [contradiction|].
  unfold findFootStrike, footScore, leadAnkleY. cbv zeta.
  eexists. split; [reflexivity|].
  rewrite coordSeries_length. apply foot_scan.
Qed.

(** The scoring loop of [findBallRelease]. *)
Lemma release_scan (Vx dElbow dTrunk : list jsnum) (lo : Z) (seed m : nat) :
  ScanInv num_gtb Z.to_nat (fun _ => true)
          (fun i => relScore A Vx dElbow dTrunk (Z.to_nat i))
          (fun d => (lo + Z.of_nat d)%Z) (seed, NegInf) m
          (fold_left (releaseStep A Vx dElbow dTrunk)
                     (map (fun d => (lo + Z.of_nat d)%Z) (seq 0 m))
                     (seed, NegInf)).
Proof.
  exact (scan_fold num_gtb num_gtb_irrefl num_gtb_trans num_gtb_better_pass
           nat Z Z.to_nat (fun _ => true)
           (fun i => relScore A Vx dElbow dTrunk (Z.to_nat i))
           (fun d => (lo + Z.of_nat d)%Z) (seed, NegInf) m).
Qed.

(** *** Frame rate 0 *)

Lemma nthN_times (frames : list Frame) (i : nat) :
  nthN (times frames) i = timeAt frames i.
Proof.
  unfold nthN, times, timeAt. revert i.
  induction frames as [|f fs IH]; intros [|i]; cbn; try reflexivity.
  apply IH.
Qed.

Lemma stalled_first (frames : list Frame) :
  StalledTimes frames -> (0 < List.length frames)%nat ->
  timeAt frames 0 = NaN.
Proof.
  intros H Hn. rewrite (H 0%nat Hn). reflexivity.
Qed.

Lemma stalled_later (frames : list Frame) (i : nat) :
  StalledTimes frames -> (1 <= i < List.length frames)%nat ->
  timeAt frames i = PosInf.
Proof.
  intros H Hi. rewrite (H i) by lia. unfold num_div. cbn [Qeq_bool].
  assert (Hpos : 0 < inject_Z (Z.of_nat i)).
  { change 0 with (inject_Z 0). rewrite <- Zlt_Qlt. lia. }
  change (Qeq_bool 0 0) with true. cbv iota.
  destruct (Qeq_bool (inject_Z (Z.of_nat i)) 0) eqn:E.
  - apply Qeq_bool_iff in E. rewrite E in Hpos. now apply Qlt_irrefl in Hpos.
  - apply Qlt_bool_iff in Hpos. now rewrite Hpos.
Qed.

(** At frame rate 0 no time step is a number. *)
Lemma stalled_step (frames : list Frame) (i : nat) :
  StalledTimes frames -> (1 <= i < List.length frames)%nat ->
  fl_sub A (timeAt frames i) (timeAt frames (i - 1)) = NaN.
Proof.
  intros H Hi. rewrite (stalled_later frames i H Hi).
  destruct (Nat.eq_dec i 1) as [->|Hne].
  - cbn [Nat.sub]. rewrite (stalled_first frames H) by lia. reflexivity.
  - rewrite (stalled_later frames (i - 1) H) by lia. reflexivity.
Qed.

Lemma nthN_map_seq (f : nat -> jsnum) (n i : nat) :
  (i < n)%nat -> nthN (map f (seq 0 n)) i = f i.
Proof.
  intros Hi. unfold nthN.
  rewrite (nth_indep _ (Fin 0) (f 0%nat)) by (now rewrite length_map, length_seq).
  rewrite (map_nth f (seq 0 n) 0%nat i), seq_nth by exact Hi. reflexivity.
Qed.

Lemma num_max_nan (a : jsnum) : num_max a NaN = NaN.
Proof. destruct a; reflexivity. Qed.

Lemma fl_div_nan (a : jsnum) : fl_div A a NaN = NaN.
Proof. destruct a; reflexivity. Qed.

Lemma fl_add_nan_r (a : jsnum) : fl_add A a NaN = NaN.
Proof. destruct a; reflexivity. Qed.

Lemma finiteDiff_stalled (frames : list Frame) (vals : list jsnum) (i : nat) :
  StalledTimes frames -> List.length vals = List.length frames ->
  (1 <= i < List.length frames)%nat ->
  nthN (finiteDiff A vals (times frames)) i = NaN.
Proof.
  intros H Hlen Hi. unfold finiteDiff.
  rewrite nthN_map_seq by lia. destruct i as [|j]; [lia|]. cbv zeta.
  rewrite !nthN_times.
  pose proof (stalled_step frames (S j) H Hi) as Hs.
  replace (S j - 1)%nat with j in Hs by lia.
  rewrite Hs, num_max_nan. apply fl_div_nan.
Qed.

(** Once the running sum of a window is [NaN] it stays so, and a [NaN]
    sample within the window makes it so. *)
Lemma window_nan_stays (a : list jsnum) (n : Z) (l : list Z) (c : Z) :
  (0 <= c)%Z ->
  let r := fold_left
             (fun sc j =>
                if ((0 <=? j) && (j <? n))%Z
                then (fl_add A (fst sc) (nthN a (Z.to_nat j)), (snd sc + 1)%Z)
                else sc)
             l (NaN, c) in
  fst r = NaN /\ (c <= snd r)%Z.
Proof.
  revert c. induction l as [|j l IH]; intros c Hc; cbv zeta.
  - cbn. split; [reflexivity|lia].
  - cbn [fold_left fst snd]. destruct ((0 <=? j) && (j <? n))%Z.
    + cbn [fl_add]. specialize (IH (c + 1)%Z ltac:(lia)). cbv zeta in IH.
      destruct IH as [H1 H2]. split; [exact H1|lia].
    + apply IH. exact Hc.
Qed.

Lemma window_nan (a : list jsnum) (n : Z) (l : list Z) (s : jsnum) (c j0 : Z) :
  (0 <= c)%Z -> In j0 l -> (0 <= j0 < n)%Z -> nthN a (Z.to_nat j0) = NaN ->
  let r := fold_left
             (fun sc j =>
                if ((0 <=? j) && (j <? n))%Z
                then (fl_add A (fst sc) (nthN a (Z.to_nat j)), (snd sc + 1)%Z)
                else sc)
             l (s, c) in
  fst r = NaN /\ (0 < snd r)%Z.
Proof.
  revert s c. induction l as [|j l IH]; intros s c Hc Hin Hj0 Hnan;
    [contradiction|].
  cbv zeta. cbn [fold_left fst snd]. destruct Hin as [->|Hin].
  - assert (E : ((0 <=? j0) && (j0 <? n))%Z = true).
    { apply andb_true_iff. split; [apply Z.leb_le|apply Z.ltb_lt]; lia. }
    rewrite E, Hnan, fl_add_nan_r.
    pose proof (window_nan_stays a n l (c + 1)%Z ltac:(lia)) as Hs.
    cbv zeta in Hs. destruct Hs as [H1 H2]. split; [exact H1|lia].
  - destruct ((0 <=? j) && (j <? n))%Z.
    + apply (IH _ (c + 1)%Z); (lia || assumption).
    + apply (IH s c); assumption.
Qed.

Lemma zrange_mem (lo hi i : Z) : (lo <= i <= hi)%Z -> In i (zrange lo hi).
Proof.
  intros H. unfold zrange. apply in_map_iff.
  exists (Z.to_nat (i - lo)). split; [lia|]. apply in_seq. lia.
Qed.

(** A [NaN] sample makes the moving averages whose window holds it
    [NaN]. *)
Lemma movingAvg_nan_window (a : list jsnum) (k i j : nat) :
  (i < List.length a)%nat -> (j < List.length a)%nat ->
  (Z.of_nat i - Z.of_nat (k / 2) <= Z.of_nat j
   <= Z.of_nat i + Z.of_nat (k / 2))%Z ->
  nthN a j = NaN -> nthN (movingAvg A a k) i = NaN.
Proof.
  intros Hi Hj Hwin Hnan. unfold movingAvg.
  destruct (k <=? 1)%nat eqn:Ek.
  - apply Nat.leb_le in Ek.
    assert (Hk : (k / 2 = 0)%nat)
      by (destruct k as [|[|k]]; [reflexivity|reflexivity|lia]).
    rewrite Hk in Hwin. replace i with j by lia. exact Hnan.
  - cbv zeta. rewrite nthN_map_seq by exact Hi.
    pose proof (window_nan a (Z.of_nat (List.length a))
                  (zrange (Z.of_nat i - Z.of_nat (k / 2))
                          (Z.of_nat i + Z.of_nat (k / 2)))
                  (Fin 0) 0%Z (Z.of_nat j) ltac:(lia)) as Hw.
    cbv zeta in Hw. destruct Hw as [H1 H2].
    + apply zrange_mem. exact Hwin.
    + lia.
    + now rewrite Nat2Z.id.
    + destruct (fold_left _ _ (Fin 0, 0%Z)) as [s c]. cbn [fst snd] in *.
      subst s. destruct (c =? 0)%Z eqn:E; [apply Z.eqb_eq in E; lia|].
      reflexivity.
Qed.

Lemma stepScore_nan (Y : list Q) (Vy Vh dYaw : list jsnum) (i : nat) :
  nthN Vy i = NaN -> stepScore A Y Vy Vh dYaw i = NaN.
Proof.
  intros H. unfold stepScore. cbv zeta. rewrite H. reflexivity.
Qed.

Lemma relScore_nan (Vx dElbow dTrunk : list jsnum) (k : nat) :
  nthN Vx k = NaN -> relScore A Vx dElbow dTrunk k = NaN.
Proof.
  intros H. unfold relScore. rewrite H. reflexivity.
Qed.

Lemma footScore_stalled (frames : list Frame) (hand : Hand) (i : nat) :
  StalledTimes frames -> (1 <= i < List.length frames)%nat ->
  footScore A L frames hand i = NaN.
Proof.
  intros H Hi. unfold footScore. cbv zeta. apply stepScore_nan.
  assert (Hlen : forall v : list Q,
            List.length v = List.length frames ->
            (i < List.length (finiteDiff A (map Fin v) (times frames)))%nat).
  { intros v Hv. rewrite finiteDiff_length, length_map, Hv. lia. }
  apply (movingAvg_nan_window _ 3 i i);
    try (apply Hlen; apply coordSeries_length); [lia|].
  apply finiteDiff_stalled; [exact H| |exact Hi].
  now rewrite length_map, coordSeries_length.
Qed.

Lemma releaseScore_stalled (frames : list Frame) (hand : Hand) (k : nat) :
  StalledTimes frames -> (1 <= k < List.length frames)%nat ->
  releaseScore A L frames hand k = NaN.
Proof.
  intros H Hk. unfold releaseScore. cbv zeta. apply relScore_nan.
  assert (Hlen : forall v : list Q,
            List.length v = List.length frames ->
            (k < List.length (finiteDiff A (map Fin v) (times frames)))%nat).
  { intros v Hv. rewrite finiteDiff_length, length_map, Hv. lia. }
  apply (movingAvg_nan_window _ 3 k k);
    try (apply Hlen; apply coordSeries_length); [lia|].
  apply finiteDiff_stalled; [exact H| |exact Hk].
  now rewrite length_map, coordSeries_length.
Qed.

Lemma timeError_stalled (frames : list Frame) (t : jsnum) (i : nat) :
  StalledTimes frames -> (i < List.length frames)%nat ->
  num_ltb (timeError A frames t i) PosInf = false.
Proof.
  intros H Hi. unfold timeError. destruct i as [|j].
  - rewrite (stalled_first frames H Hi). reflexivity.
  - rewrite (stalled_later frames (S j) H) by lia.
    destruct t; reflexivity.
Qed.

Lemma indexFromTime_stalled (frames : list Frame) (t : jsnum) (i : nat) :
  StalledTimes frames -> indexFromTime A frames (Some t) = Some i ->
  i = 0%nat.
Proof.
  intros H Hi.
  destruct (indexFromTime_fold frames (Some t) i Hi) as [t0 [Ht [-> Hne]]].
  apply Some_inj in Ht. subst t0.
  destruct (nearest_scan frames t (List.length frames))
    as [[-> _]|[d0 [Hd0 [_ [_ [Htop _]]]]]]; [reflexivity|].
  cbn [snd] in Htop. rewrite (timeError_stalled frames t d0 H Hd0) in Htop.
  discriminate.
Qed.

End Detection.

(** C2, as the code has it: [findBallRelease] returns [undefined]
    exactly when [frames] is empty and otherwise an index of the track;
    [findFootStrike] returns [undefined] exactly when no interior frame
    (index 2 to n - 3) is a local minimum of the lead ankle's height
    with a score below [Infinity], which includes every track of fewer
    than five frames and every track with the frame times of frame rate
    0, and otherwise returns such an interior local minimum.  Both are
    functions of their arguments. *)
Theorem detection_results (A : Arith) (L : FloatLib) (frames : list Frame)
  (hand : Hand) (rel : option jsnum) :
  (findBallRelease A L frames hand rel = None <-> frames = [])
  /\ (forall i, findBallRelease A L frames hand rel = Some i ->
                (i < List.length frames)%nat)
  /\ (findFootStrike A L frames hand = None
      <-> forall i, (2 <= i)%nat -> (i + 2 < List.length frames)%nat ->
                    localMinAt (leadAnkleY frames hand) i = true ->
                    ~ Below (footScore A L frames hand i) PosInf)
  /\ (forall i, findFootStrike A L frames hand = Some i ->
                (2 <= i)%nat /\ (i + 2 < List.length frames)%nat
                /\ localMinAt (leadAnkleY frames hand) i = true
                /\ Below (footScore A L frames hand i) PosInf)
  /\ ((List.length frames < 5)%nat -> findFootStrike A L frames hand = None)
  /\ (StalledTimes frames -> findFootStrike A L frames hand = None).
Proof.
  split.
  { unfold findBallRelease. destruct frames; split; intros H;
      try reflexivity; discriminate. }
  split; [intros i; apply findBallRelease_bound|].
  assert (H34 :
    (findFootStrike A L frames hand = None
     <-> forall i, (2 <= i)%nat -> (i + 2 < List.length frames)%nat ->
                   localMinAt (leadAnkleY frames hand) i = true ->
                   ~ Below (footScore A L frames hand i) PosInf)
    /\ (forall i, findFootStrike A L frames hand = Some i ->
                  (2 <= i)%nat /\ (i + 2 < List.length frames)%nat
                  /\ localMinAt (leadAnkleY frames hand) i = true
                  /\ Below (footScore A L frames hand i) PosInf)).
  { destruct frames as [|f fs].
    { split.
      - split; [|reflexivity]. intros _ i _ Hi. cbn in Hi. lia.
      - intros i H. discriminate. }
    destruct (findFootStrike_scan A L (f :: fs) hand) as [st [Hst Hinv]];
      [discriminate|].
    rewrite <- Hst. unfold Below.
    destruct Hinv as [[-> Hall]|[d0 [Hd0 [He0 [-> [Htop _]]]]]];
      cbn [fst snd] in *.
    - split; [|intros i H; discriminate].
      split; [|reflexivity]. intros _ i H2 Hi Hmin.
      specialize (Hall (i - 2)%nat).
      replace (2 + (i - 2))%nat with i in Hall by lia.
      rewrite Hall; [discriminate|lia|exact Hmin].
    - split.
      + split; [discriminate|]. intros Hall. exfalso.
        apply (Hall (2 + d0)%nat); [lia|lia|exact He0|exact Htop].
      + intros i H. apply Some_inj in H. subst i.
        split; [lia|]. split; [lia|]. split; [exact He0|exact Htop]. }
  destruct H34 as [H3 H4]. split; [exact H3|]. split; [exact H4|]. split.
  - intros Hshort. apply H3. intros i H2 Hi. lia.
  - intros Hst. apply H3. intros i H2 Hi _. unfold Below.
    rewrite (footScore_stalled A L frames hand i Hst) by lia. discriminate.
Qed.

(** A track of one frame is not empty, yet [findFootStrike] returns
    [undefined] on it. *)
Lemma findFootStrike_undefined_on_frames :
  oneFrameTrack <> []
  /\ findFootStrike binary64 axisLib oneFrameTrack HandR = None
  /\ findFootStrike binary64 axisLib oneFrameTrack HandL = None
  /\ findFootStrike binary64 axisLib oneFrameTrack HandUnknown = None.
Proof.
  repeat split; try reflexivity. discriminate.
Qed.

Lemma stalledTrack_times : StalledTimes stalledTrack.
Proof.
  intros i Hi. do 7 (destruct i as [|i]; [reflexivity|]).
  cbn in Hi. lia.
Qed.

(** At frame rate 0 the track builder gives the frames the times
    [NaN, Infinity, Infinity, ...]: every time step is [NaN] and so is
    every score.  [findFootStrike] returns [undefined] although frame 3
    is an interior local minimum, and [findBallRelease], given a release
    time, returns frame 0, which [indexFromTime] picks when no distance
    is below [Infinity]. *)
Lemma detection_at_frame_rate_zero :
  StalledTimes stalledTrack
  /\ map time stalledTrack
     = [NaN; PosInf; PosInf; PosInf; PosInf; PosInf; PosInf]
  /\ localMinAt (leadAnkleY stalledTrack HandR) 3 = true
  /\ footScore binary64 axisLib stalledTrack HandR 3 = NaN
  /\ findFootStrike binary64 axisLib stalledTrack HandR = None
  /\ indexFromTime binary64 stalledTrack (Some (Fin 1)) = Some 0%nat
  /\ findBallRelease binary64 axisLib stalledTrack HandR (Some (Fin 1))
     = Some 0%nat.
Proof.
  split; [exact stalledTrack_times|].
  repeat split; vm_compute; reflexivity.
Qed.

(* ================================================================== *)
(** * Missing left hip (C9) *)

Section MissingJoint.
Variable M : MathLib.

Lemma getFrom_setKey (k name : string) (v : V3) (J : Joints) :
  normKey k <> normKey name -> getFrom (setKey k v J) name = getFrom J name.
Proof.
  intros Hne. apply String.eqb_neq in Hne.
  induction J as [|[k' v'] r IH]; cbn [setKey getFrom].
  - now rewrite Hne.
  - destruct (String.eqb k k') eqn:E; cbn [getFrom].
    + apply String.eqb_eq in E. subst k'. now rewrite Hne.
    + now rewrite IH.
Qed.

Lemma resolve_setKey (ls : list Lookup) (k : string) (v : V3) (J : Joints) :
  Forall (avoids k) ls -> resolve ls (setKey k v J) = resolve ls J.
Proof.
  induction 1 as [|l r Hl _ IH]; [reflexivity|].
  cbn [resolve]. rewrite IH. destruct l as [n|k0]; cbn [avoids] in Hl.
  - now rewrite getFrom_setKey.
  - now rewrite assoc_setKey_other.
Qed.

Lemma firstOf_setKey (keys : list string) (k : string) (v : V3) (J : Joints) :
  ~ In k keys -> firstOf keys (setKey k v J) = firstOf keys J.
Proof.
  induction keys as [|k0 r IH]; intros Hk; [reflexivity|].
  cbn [firstOf]. rewrite assoc_setKey_other, IH; [reflexivity| |].
  - intros H. apply Hk. now right.
  - intros ->. apply Hk. now left.
Qed.

Lemma metrics_fields (bodyHeight : option Q) (flipHome : bool)
  (prev : option Q) (J : Joints) :
  let m := fst (metrics M bodyHeight flipHome prev J) in
  lKneeFlex m = kneeFlex M (lHipOf J) (lKneeOf J) (lAnkleOf J)
  /\ rKneeFlex m = kneeFlex M (rHipOf J) (rKneeOf J) (rAnkleOf J)
  /\ rElbowFlex m
     = elbowFlex M (firstOf (shoulderKeys SideR) J)
                 (firstOf (elbowKeys SideR) J) (firstOf (wristKeys SideR) J)
  /\ rAbd m
     = abduction M (rShoulderOf J) (rElbowOf J)
                 (trunkUp M (pelvisOf J) (chestOf J)).
Proof.
  unfold metrics. destruct (trunkRotation M flipHome prev J).
  cbn [fst]. repeat split.
Qed.

Lemma trunkUp_no_chest (pelvis : option V3) :
  trunkUp M pelvis None = mkV3 0 1 0.
Proof.
  destruct pelvis; reflexivity.
Qed.

End MissingJoint.

(** C9, as the code has it: in a frame where the left hip is absent under
    all of its aliases, left knee flexion is [undefined]; right knee
    flexion and right elbow flexion are what they would be with a left
    hip added; and so is right shoulder abduction as long as the pelvis
    does not have to be synthesized from the two hips (a pelvis joint is
    present, or the right hip or the chest is absent). *)
Theorem left_hip_missing (M : MathLib) (bodyHeight : option Q)
  (flipHome : bool) (prev : option Q) (J : Joints) (v : V3)
  (Hl : lHipOf J = None) :
  let m := fst (metrics M bodyHeight flipHome prev J) in
  let m' := fst (metrics M bodyHeight flipHome prev (setKey "lHip" v J)) in
  lKneeFlex m = None
  /\ rKneeFlex m' = rKneeFlex m
  /\ rElbowFlex m' = rElbowFlex m
  /\ (PelvisNotSynthesized J -> rAbd m' = rAbd m).
Proof.
  cbv zeta.
  destruct (metrics_fields M bodyHeight flipHome prev J)
    as [HlK [HrK [HrE HrA]]].
  destruct (metrics_fields M bodyHeight flipHome prev (setKey "lHip" v J))
    as [_ [HrK' [HrE' HrA']]].
  cbv zeta in *.
  rewrite HlK, HrK, HrE, HrA, HrK', HrE', HrA'.
  assert (Hrh : rHipOf (setKey "lHip" v J) = rHipOf J)
    by (apply resolve_setKey; avoided).
  split; [now rewrite Hl|]. split.
  { unfold rKneeOf, rAnkleOf. rewrite Hrh.
    rewrite !resolve_setKey by avoided. reflexivity. }
  split.
  { rewrite !firstOf_setKey by not_listed. reflexivity. }
  intros Hp.
  assert (Hsh : rShoulderOf (setKey "lHip" v J) = rShoulderOf J)
    by (apply resolve_setKey; avoided).
  assert (Hel : rElbowOf (setKey "lHip" v J) = rElbowOf J)
    by (apply resolve_setKey; avoided).
  assert (Hch : chestOf (setKey "lHip" v J) = chestOf J).
  { unfold chestOf, chestRawOf, lShoulderOf, rShoulderOf.
    rewrite !resolve_setKey by avoided. reflexivity. }
  assert (Hpr : pelvisRawOf (setKey "lHip" v J) = pelvisRawOf J)
    by (apply resolve_setKey; avoided).
  rewrite Hsh, Hel, Hch. f_equal.
  unfold pelvisOf. rewrite Hpr, Hrh.
  destruct Hp as [Hp|[Hp|Hp]].
  - destruct (pelvisRawOf J); [reflexivity|contradiction].
  - rewrite Hp. unfold orMidpoint.
    destruct (pelvisRawOf J), (lHipOf (setKey "lHip" v J)), (lHipOf J);
      reflexivity.
  - rewrite Hp. now rewrite !trunkUp_no_chest.
Qed.

(** C9 at the pose with a pelvis joint: adding a left hip changes none
    of the three right-side values. *)
Lemma left_hip_missing_witness :
  lHipOf pelvisPose = None
  /\ PelvisNotSynthesized pelvisPose
  /\ lKneeFlex (fst (metrics axisMath None false None pelvisPose)) = None
  /\ rAbd (fst (metrics axisMath None false None
                   (setKey "lHip" (mkV3 0 0 1) pelvisPose)))
     = rAbd (fst (metrics axisMath None false None pelvisPose)).
Proof.
  assert (Hl : lHipOf pelvisPose = None) by reflexivity.
  assert (Hp : PelvisNotSynthesized pelvisPose)
    by (left; vm_compute; discriminate).
  split; [exact Hl|]. split; [exact Hp|].
  destruct (left_hip_missing axisMath None false None pelvisPose
              (mkV3 0 0 1) Hl) as [H1 [_ [_ H4]]].
  split; [exact H1|exact (H4 Hp)].
Defined.

(** Without a pelvis joint the trunk-up axis falls back to world-up while
    the left hip is missing (right abduction 90) and follows
    chest - mid-hip once it is present (right abduction 0). *)
Lemma right_abduction_depends_on_left_hip :
  lHipOf noLeftHipPose = None
  /\ exists a b : Q,
       rAbd (fst (metrics axisMath None false None noLeftHipPose)) = Some a
       /\ rAbd (fst (metrics axisMath None false None
                        (setKey "lHip" (mkV3 0 0 1) noLeftHipPose)))
          = Some b
       /\ a == 90 /\ b == 0 /\ ~ a == b.
Proof.
  split; [reflexivity|]. do 2 eexists.
  split; [vm_compute; reflexivity|].
  split; [vm_compute; reflexivity|].
  repeat split; try reflexivity. intros H. discriminate H.
Qed.

(* ================================================================== *)
(** * Further properties: angles *)

Lemma Congruent360_refl (a : Q) : Congruent360 a a.
Proof.
  exists 0%Z. change (inject_Z 0) with 0. lra.
Qed.

Lemma Congruent360_shift (a b : Q) (n : Z) :
  Congruent360 a (b + 360 * inject_Z n) -> Congruent360 a b.
Proof.
  intros [k Hk]. exists (n + k)%Z. rewrite Hk, inject_Z_plus. lra.
Qed.

Lemma Congruent360_trans (a b c : Q) :
  Congruent360 a b -> Congruent360 b c -> Congruent360 a c.
Proof.
  intros [k Hk] [m Hm]. exists (m + k)%Z. rewrite Hk, Hm, inject_Z_plus. lra.
Qed.

Lemma wrapDown_congr (fuel : nat) (d : Q) : Congruent360 (wrapDown fuel d) d.
Proof.
  revert d. induction fuel as [|f IH]; intros d; [apply Congruent360_refl|].
  cbn [wrapDown]. destruct (Qlt_bool 180 d); [|apply Congruent360_refl].
  apply (Congruent360_shift _ d (-1)). specialize (IH (d - 360)).
  destruct IH as [k Hk]. exists k. rewrite Hk.
  change (inject_Z (-1)) with (-1). lra.
Qed.

Lemma wrapUp_congr (fuel : nat) (d : Q) : Congruent360 (wrapUp fuel d) d.
Proof.
  revert d. induction fuel as [|f IH]; intros d; [apply Congruent360_refl|].
  cbn [wrapUp]. destruct (Qlt_bool d (-180)); [|apply Congruent360_refl].
  apply (Congruent360_shift _ d 1). specialize (IH (d + 360)).
  destruct IH as [k Hk]. exists k. rewrite Hk.
  change (inject_Z 1) with 1. lra.
Qed.

Lemma wrap180_congr (d : Q) : Congruent360 (wrap180 d) d.
Proof.
  unfold wrap180. cbv zeta.
  apply Congruent360_trans with (wrapDown (turns d) d);
    [apply wrapUp_congr|apply wrapDown_congr].
Qed.

(** X1: for an angle of magnitude at most 2^53, a range in which
    subtracting or adding 360 is exact on doubles, [wrap180] brings the
    angle into [-180, 180] by whole turns only, and leaves an angle that
    is already there untouched. *)
Theorem wrap180_principal (d : Q) (Hd : Qabs d <= 9007199254740992) :
  (-180 <= wrap180 d /\ wrap180 d <= 180)
  /\ Congruent360 (wrap180 d) d
  /\ (-180 <= d -> d <= 180 -> wrap180 d = d).
Proof.
  split; [apply wrap180_range|]. split; [|apply wrap180_id].
  apply wrap180_congr.
Qed.

(** X1 at one turn and a half. *)
Lemma wrap180_principal_witness :
  Qabs 540 <= 9007199254740992
  /\ wrap180 540 == 180
  /\ Congruent360 (wrap180 540) 540.
Proof.
  assert (Hd : Qabs 540 <= 9007199254740992) by (vm_compute; discriminate).
  split; [exact Hd|]. split; [reflexivity|].
  exact (proj1 (proj2 (wrap180_principal 540 Hd))).
Defined.

Lemma trunc_small (q : Q) :
  0 <= q -> q < 1 -> Z.quot (Qnum q) (Zpos (Qden q)) = 0%Z.
Proof.
  intros H0 H1. apply Z.quot_small.
  unfold Qle, Qlt in *. simpl in *. lia.
Qed.

Lemma trunc_error (q : Q) :
  Qabs (q - inject_Z (Z.quot (Qnum q) (Zpos (Qden q)))) < 1.
Proof.
  destruct q as [n p]. cbn [Qnum Qden].
  assert (E : (n # p) - inject_Z (Z.quot n (Zpos p))
              == Z.rem n (Zpos p) # p).
  { unfold Qeq, Qminus, Qplus, Qopp, inject_Z. cbn [Qnum Qden].
    pose proof (Z.quot_rem' n (Zpos p)) as Hq. rewrite Pos.mul_1_r.
    remember (Z.quot n (Zpos p)) as qq eqn:Eq.
    remember (Z.rem n (Zpos p)) as rr eqn:Er.
    clear Eq Er. subst n. ring. }
  rewrite E. unfold Qabs, Qlt. cbn [Qnum Qden].
  pose proof (Z.rem_bound_abs n (Zpos p)) as Hb.
  assert (Hp : (Z.abs (Zpos p) = Zpos p)%Z) by reflexivity.
  rewrite Hp in Hb. specialize (Hb ltac:(discriminate)). lia.
Qed.

Lemma rem360_bound (deg : Q) : Qabs (rem360 deg) < 360.
Proof.
  unfold rem360. cbv zeta.
  set (q := deg / 360). set (t := inject_Z _).
  assert (E : deg - 360 * t == 360 * (q - t)) by (unfold q; field).
  rewrite E, Qabs_Qmult. pose proof (trunc_error q) as H. fold t in H.
  change (Qabs 360) with 360. lra.
Qed.

Lemma rem360_small (deg : Q) : 0 <= deg -> deg < 360 -> rem360 deg == deg.
Proof.
  intros H0 H1. unfold rem360. cbv zeta. rewrite trunc_small.
  - change (inject_Z 0) with 0. lra.
  - apply Qle_shift_div_l; [reflexivity|lra].
  - apply Qlt_shift_div_r; [reflexivity|lra].
Qed.

Lemma Qabs_pos_id (x : Q) : 0 <= x -> Qabs x == x.
Proof.
  intros H. now apply Qabs_pos.
Qed.

Lemma min_mirror_range (x : Q) :
  0 <= x -> x <= 180 -> 0 <= Qmin x (180 - x) /\ Qmin x (180 - x) <= 90.
Proof.
  intros H0 H1. split; [apply Q.min_glb; lra|].
  destruct (Qlt_le_dec x 90) as [H|H].
  - eapply Qle_trans; [apply Q.le_min_l|]. lra.
  - eapply Qle_trans; [apply Q.le_min_r|]. lra.
Qed.

Lemma fold90_bounds (deg : Q) : 0 <= fold90 deg /\ fold90 deg <= 90.
Proof.
  unfold fold90. cbv zeta.
  pose proof (rem360_bound deg) as Hb.
  pose proof (Qabs_nonneg (rem360 deg)) as Hn.
  destruct (Qlt_bool 180 (Qabs (rem360 deg))) eqn:E.
  - apply Qlt_bool_iff in E. apply min_mirror_range; lra.
  - apply Qlt_bool_false in E. apply min_mirror_range; lra.
Qed.

(** X2: [fold90] always returns an angle of [0, 90]; it leaves an angle
    of [0, 90] as it is and mirrors an angle of [90, 180] to
    [180 - angle]. *)
Theorem fold90_range (deg : Q) :
  (0 <= fold90 deg /\ fold90 deg <= 90)
  /\ (0 <= deg -> deg <= 90 -> fold90 deg == deg)
  /\ (90 <= deg -> deg <= 180 -> fold90 deg == 180 - deg).
Proof.
  unfold fold90. cbv zeta.
  pose proof (rem360_bound deg) as Hb.
  pose proof (Qabs_nonneg (rem360 deg)) as Hn.
  split; [|split].
  - apply fold90_bounds.
  - intros H0 H1.
    assert (Er : Qabs (rem360 deg) == deg).
    { rewrite (rem360_small deg) by lra. now apply Qabs_pos_id. }
    destruct (Qlt_bool 180 (Qabs (rem360 deg))) eqn:E.
    + apply Qlt_bool_iff in E. lra.
    + rewrite Er. apply Q.min_l. lra.
  - intros H0 H1.
    assert (Er : Qabs (rem360 deg) == deg).
    { rewrite (rem360_small deg) by lra. apply Qabs_pos_id. lra. }
    destruct (Qlt_bool 180 (Qabs (rem360 deg))) eqn:E.
    + apply Qlt_bool_iff in E. lra.
    + rewrite Er. rewrite Q.min_r by lra. reflexivity.
Qed.

(* ================================================================== *)
(** * Further properties: series helpers *)

Lemma fold_left_on {S T : Type} (f g : S -> T -> S) (l : list T) (init : S) :
  (forall st x, In x l -> f st x = g st x) ->
  fold_left f l init = fold_left g l init.
Proof.
  revert init. induction l as [|x r IH]; intros init H; [reflexivity|].
  cbn [fold_left]. rewrite (H init x) by (now left).
  apply IH. intros st y Hy. apply H. now right.
Qed.

Lemma movingAvg_local (A : Arith) (a b : list jsnum) (k i : nat) :
  List.length a = List.length b -> (i < List.length a)%nat ->
  (forall j, (j < List.length a)%nat ->
             (Z.of_nat i - Z.of_nat (k / 2) <= Z.of_nat j
              <= Z.of_nat i + Z.of_nat (k / 2))%Z ->
             nthN a j = nthN b j) ->
  nthN (movingAvg A a k) i = nthN (movingAvg A b k) i.
Proof.
  intros Hlen Hi Hwin. unfold movingAvg.
  destruct (k <=? 1)%nat; [apply Hwin; lia|]. cbv zeta.
  rewrite <- Hlen. rewrite !nthN_map_seq by exact Hi.
  rewrite (fold_left_on _
             (fun sc j =>
                if ((0 <=? j) && (j <? Z.of_nat (List.length a)))%Z
                then (fl_add A (fst sc) (nthN b (Z.to_nat j)), (snd sc + 1)%Z)
                else sc)).
  - rewrite (Hwin i Hi) by lia. reflexivity.
  - intros st j Hj. apply zrange_In in Hj.
    destruct ((0 <=? j) && (j <? Z.of_nat (List.length a)))%Z eqn:E;
      [|reflexivity].
    apply andb_true_iff in E. destruct E as [E1 E2].
    apply Z.leb_le in E1. apply Z.ltb_lt in E2.
    rewrite (Hwin (Z.to_nat j)) by lia. reflexivity.
Qed.

(** X3: [movingAvg] returns a series of the same length as its input;
    the entry at an index depends only on the samples within [k / 2] of
    that index; and it is [NaN] as soon as one of those samples is. *)
Theorem movingAvg_window (A : Arith) (a : list jsnum) (k i : nat)
  (Hi : (i < List.length a)%nat) :
  List.length (movingAvg A a k) = List.length a
  /\ (forall b : list jsnum,
        List.length b = List.length a ->
        (forall j, (j < List.length a)%nat ->
                   (Z.of_nat i - Z.of_nat (k / 2) <= Z.of_nat j
                    <= Z.of_nat i + Z.of_nat (k / 2))%Z ->
                   nthN a j = nthN b j) ->
        nthN (movingAvg A a k) i = nthN (movingAvg A b k) i)
  /\ (forall j, (j < List.length a)%nat ->
                (Z.of_nat i - Z.of_nat (k / 2) <= Z.of_nat j
                 <= Z.of_nat i + Z.of_nat (k / 2))%Z ->
                nthN a j = NaN -> nthN (movingAvg A a k) i = NaN).
Proof.
  split; [apply movingAvg_length|]. split.
  - intros b Hlen Hwin. apply movingAvg_local; [now symmetry|exact Hi|].
    exact Hwin.
  - intros j Hj Hwin Hnan.
    exact (movingAvg_nan_window A a k i j Hi Hj Hwin Hnan).
Qed.

(** X3 on a series of five samples, in double arithmetic: the average
    of window 3 at index 1 does not see the last two samples, and a
    [NaN] at index 2 reaches it. *)
Lemma movingAvg_window_witness :
  nthN (movingAvg binary64 [Fin 1; Fin 2; Fin 3; Fin 4; Fin 5] 3) 1
  = nthN (movingAvg binary64 [Fin 1; Fin 2; Fin 3; Fin 0; NaN] 3) 1
  /\ nthN (movingAvg binary64 [Fin 1; Fin 2; NaN; Fin 4; Fin 5] 3) 1 = NaN.
Proof.
  split.
  - refine (proj1 (proj2 (movingAvg_window binary64
                            [Fin 1; Fin 2; Fin 3; Fin 4; Fin 5] 3 1 _))
                  [Fin 1; Fin 2; Fin 3; Fin 0; NaN] eq_refl _).
    + cbn. lia.
    + intros j Hj Hwin. cbn in Hwin.
      destruct j as [|[|[|j]]]; try reflexivity. lia.
  - refine (proj2 (proj2 (movingAvg_window binary64
                            [Fin 1; Fin 2; NaN; Fin 4; Fin 5] 3 1 _))
                  2%nat _ _ eq_refl).
    + cbn. lia.
    + cbn. lia.
    + cbn. lia.
Defined.

(** X4: [finiteDiff] returns one entry per sample; with the frame times
    of frame rate 0 its first entry is 0 and every later entry is [NaN],
    whatever the samples. *)
Theorem finiteDiff_frame_rate_zero (A : Arith) (frames : list Frame)
  (vals : list jsnum) (Hst : StalledTimes frames)
  (Hlen : List.length vals = List.length frames) :
  List.length (finiteDiff A vals (times frames)) = List.length vals
  /\ ((0 < List.length frames)%nat ->
      nthN (finiteDiff A vals (times frames)) 0 = Fin 0)
  /\ (forall i, (1 <= i < List.length frames)%nat ->
                nthN (finiteDiff A vals (times frames)) i = NaN).
Proof.
  split; [apply finiteDiff_length|]. split.
  - intros Hn. unfold finiteDiff. rewrite nthN_map_seq by lia. reflexivity.
  - intros i Hi. exact (finiteDiff_stalled A frames vals i Hst Hlen Hi).
Qed.

(** X4 on the heights of the stalled track, in double arithmetic. *)
Lemma finiteDiff_frame_rate_zero_witness :
  StalledTimes stalledTrack
  /\ List.length (map Fin (leadAnkleY stalledTrack HandR))
     = List.length stalledTrack
  /\ nthN (finiteDiff binary64 (map Fin (leadAnkleY stalledTrack HandR))
                      (times stalledTrack)) 0 = Fin 0
  /\ nthN (finiteDiff binary64 (map Fin (leadAnkleY stalledTrack HandR))
                      (times stalledTrack)) 3 = NaN.
Proof.
  assert (Hst : StalledTimes stalledTrack) by exact stalledTrack_times.
  split; [exact Hst|]. split; [reflexivity|].
  destruct (finiteDiff_frame_rate_zero binary64 stalledTrack
              (map Fin (leadAnkleY stalledTrack HandR)) Hst eq_refl)
    as [_ [H0 Hn]].
  split; [apply H0; cbn; lia|apply Hn; cbn; lia].
Defined.

(* ================================================================== *)
(** * Further properties: event detection *)

(** X5: [indexFromTime] returns the index of a frame such that no frame
    has a smaller computed distance [|time - tSec|] to the target, and
    such that every earlier frame has a larger one, unless its distance
    is [NaN]; with the frame times of frame rate 0 it returns frame
    0. *)
Theorem indexFromTime_nearest (A : Arith) (frames : list Frame) (t : jsnum)
  (i : nat) (H : indexFromTime A frames (Some t) = Some i) :
  (i < List.length frames)%nat
  /\ (forall j, (j < List.length frames)%nat ->
                num_ltb (timeError A frames t j) (timeError A frames t i)
                = false)
  /\ (forall j, (j < i)%nat ->
                isNaN (timeError A frames t j) = true
                \/ Below (timeError A frames t i) (timeError A frames t j))
  /\ (StalledTimes frames -> i = 0%nat).
Proof.
  split; [exact (indexFromTime_bound A frames (Some t) i H)|].
  assert (Hst : StalledTimes frames -> i = 0%nat)
    by (intros Hst; exact (indexFromTime_stalled A frames t i Hst H)).
  assert (Hnear :
    (forall j, (j < List.length frames)%nat ->
               num_ltb (timeError A frames t j) (timeError A frames t i)
               = false)
    /\ (forall j, (j < i)%nat ->
                  isNaN (timeError A frames t j) = true
                  \/ Below (timeError A frames t i)
                           (timeError A frames t j))).
  { clear Hst.
    destruct (indexFromTime_fold A frames (Some t) i H) as [t0 [Ht [-> Hne]]].
    apply Some_inj in Ht. subst t0.
    pose proof (nearest_scan A frames t (List.length frames)) as Hinv.
    destruct Hinv as [[-> Hall]|[d0 [Hd0 [_ [-> [_ [Hbest Hfirst]]]]]]];
      cbn [fst snd] in *.
    - split; [|intros j Hj; lia]. intros j Hj.
      apply not_below_top; apply Hall; (lia || reflexivity).
    - split.
      + intros j Hj. now apply Hbest.
      + intros j Hj. now apply Hfirst. }
  destruct Hnear as [H2 H3]. split; [exact H2|]. split; [exact H3|exact Hst].
Qed.

(** X5 on two frames at times 1 and 1 + 2^-52 with the target 3.5, in
    double arithmetic: both computed distances are 2.5 and the first
    frame is returned. *)
Lemma indexFromTime_nearest_witness :
  indexFromTime binary64 closeTrack (Some (Fin (7 # 2))) = Some 0%nat
  /\ timeError binary64 closeTrack (Fin (7 # 2)) 0 = Fin (5 # 2)
  /\ timeError binary64 closeTrack (Fin (7 # 2)) 1 = Fin (5 # 2)
  /\ num_ltb (timeError binary64 closeTrack (Fin (7 # 2)) 1)
             (timeError binary64 closeTrack (Fin (7 # 2)) 0) = false.
Proof.
  assert (H : indexFromTime binary64 closeTrack (Some (Fin (7 # 2)))
              = Some 0%nat) by (vm_compute; reflexivity).
  destruct (indexFromTime_nearest binary64 closeTrack (Fin (7 # 2)) 0 H)
    as [_ [Hbest _]].
  split; [exact H|]. split; [vm_compute; reflexivity|].
  split; [vm_compute; reflexivity|]. apply Hbest. cbn. lia.
Defined.

(** X6: a track of fewer than five frames has no pair of frames in its
    last quarter, so hand detection answers "?" whatever the wrists
    do. *)
Theorem detectHandedness_short_track (A : Arith) (frames : list Frame)
  (Hn : (List.length frames < 5)%nat) :
  detectHandedness A frames = HandUnknown.
Proof.
  destruct frames as [|a [|b [|c [|d [|e r]]]]]; try reflexivity.
  cbn in Hn. lia.
Qed.

(** X6 on the one-frame track. *)
Lemma detectHandedness_short_track_witness :
  (List.length oneFrameTrack < 5)%nat
  /\ detectHandedness binary64 oneFrameTrack = HandUnknown.
Proof.
  assert (H : (List.length oneFrameTrack < 5)%nat) by (cbn; lia).
  split; [exact H|].
  exact (detectHandedness_short_track binary64 oneFrameTrack H).
Defined.

(** X8: when [findFootStrike] returns an index, it is an interior local
    minimum of the lead ankle's height; no interior local minimum has a
    lower computed score, and every earlier one has a higher score,
    unless its score is [NaN]. *)
Theorem findFootStrike_lowest_score (A : Arith) (L : FloatLib)
  (frames : list Frame) (hand : Hand) (i : nat)
  (H : findFootStrike A L frames hand = Some i) :
  localMinAt (leadAnkleY frames hand) i = true
  /\ (forall j, (2 <= j)%nat -> (j + 2 < List.length frames)%nat ->
                localMinAt (leadAnkleY frames hand) j = true ->
                num_ltb (footScore A L frames hand j)
                        (footScore A L frames hand i) = false)
  /\ (forall j, (2 <= j < i)%nat ->
                localMinAt (leadAnkleY frames hand) j = true ->
                isNaN (footScore A L frames hand j) = true
                \/ Below (footScore A L frames hand i)
                         (footScore A L frames hand j)).
Proof.
  assert (Hne : frames <> []) by (intros ->; discriminate).
  destruct (findFootStrike_scan A L frames hand Hne) as [st [Hst Hinv]].
  rewrite H in Hst.
  destruct Hinv as [[-> _]|[d0 [Hd0 [He0 [-> [_ [Hbest Hfirst]]]]]]];
    cbn [fst] in Hst; [discriminate|].
  apply Some_inj in Hst. subst i. split; [exact He0|]. split.
  - intros j H2 Hj Hmin. specialize (Hbest (j - 2)%nat).
    replace (2 + (j - 2))%nat with j in Hbest by lia.
    apply Hbest; [lia|exact Hmin].
  - intros j Hj Hmin. specialize (Hfirst (j - 2)%nat).
    replace (2 + (j - 2))%nat with j in Hfirst by lia.
    apply Hfirst; [lia|exact Hmin].
Qed.

(** X8 on the two-dip track, in double arithmetic: frames 4 and 7 are
    interior local minima whose scores differ in the last place only,
    and the later one, whose computed score is the lower, is
    returned. *)
Lemma findFootStrike_lowest_score_witness :
  findFootStrike binary64 axisLib twoDipTrack HandR = Some 7%nat
  /\ localMinAt (leadAnkleY twoDipTrack HandR) 4 = true
  /\ localMinAt (leadAnkleY twoDipTrack HandR) 7 = true
  /\ Below (footScore binary64 axisLib twoDipTrack HandR 7)
           (footScore binary64 axisLib twoDipTrack HandR 4).
Proof.
  assert (H : findFootStrike binary64 axisLib twoDipTrack HandR
              = Some 7%nat) by (vm_compute; reflexivity).
  assert (H4 : localMinAt (leadAnkleY twoDipTrack HandR) 4 = true)
    by (vm_compute; reflexivity).
  destruct (findFootStrike_lowest_score binary64 axisLib twoDipTrack HandR
              7 H) as [H7 [_ Hfirst]].
  split; [exact H|]. split; [exact H4|]. split; [exact H7|].
  destruct (Hfirst 4%nat ltac:(lia) H4) as [Hn|Hb]; [|exact Hb].
  vm_compute in Hn. discriminate Hn.
Defined.

(** X7: with a declared release time, [findBallRelease] searches the
    frames within 20 of the frame that [indexFromTime] gives for that
    time, never the first or the last frame of the track.  It returns a
    frame of that window whose computed score is above [-Infinity], that
    no frame of the window outscores and that outscores every earlier
    frame of the window (unless that frame's score is [NaN]); when no
    frame of the window scores above [-Infinity], as when the window is
    empty, it returns the frame given by [indexFromTime].  With the
    frame times of frame rate 0 that is frame 0. *)
Theorem findBallRelease_window (A : Arith) (L : FloatLib)
  (frames : list Frame) (hand : Hand) (t : jsnum) (s i : nat)
  (Hs : indexFromTime A frames (Some t) = Some s)
  (Hi : findBallRelease A L frames hand (Some t) = Some i) :
  let lo := Z.max 1 (Z.of_nat s - 20) in
  let hi := Z.min (Z.of_nat (List.length frames) - 2) (Z.of_nat s + 20) in
  ((i = s
    /\ forall j, (lo <= Z.of_nat j <= hi)%Z ->
                 num_ltb NegInf (releaseScore A L frames hand j) = false)
   \/ ((lo <= Z.of_nat i <= hi)%Z
       /\ Below NegInf (releaseScore A L frames hand i)
       /\ (forall j, (lo <= Z.of_nat j <= hi)%Z ->
                     num_ltb (releaseScore A L frames hand i)
                             (releaseScore A L frames hand j) = false)
       /\ (forall j, (lo <= Z.of_nat j)%Z -> (j < i)%nat ->
                     isNaN (releaseScore A L frames hand j) = true
                     \/ Below (releaseScore A L frames hand j)
                              (releaseScore A L frames hand i))))
  /\ (StalledTimes frames -> i = 0%nat).
Proof.
  cbv zeta.
  assert (Hmain :
    (i = s
     /\ forall j,
          (Z.max 1 (Z.of_nat s - 20) <= Z.of_nat j
           <= Z.min (Z.of_nat (List.length frames) - 2) (Z.of_nat s + 20))%Z ->
          num_ltb NegInf (releaseScore A L frames hand j) = false)
    \/ ((Z.max 1 (Z.of_nat s - 20) <= Z.of_nat i
         <= Z.min (Z.of_nat (List.length frames) - 2) (Z.of_nat s + 20))%Z
        /\ Below NegInf (releaseScore A L frames hand i)
        /\ (forall j,
              (Z.max 1 (Z.of_nat s - 20) <= Z.of_nat j
               <= Z.min (Z.of_nat (List.length frames) - 2)
                        (Z.of_nat s + 20))%Z ->
              num_ltb (releaseScore A L frames hand i)
                      (releaseScore A L frames hand j) = false)
        /\ (forall j, (Z.max 1 (Z.of_nat s - 20) <= Z.of_nat j)%Z ->
                      (j < i)%nat ->
                      isNaN (releaseScore A L frames hand j) = true
                      \/ Below (releaseScore A L frames hand j)
                               (releaseScore A L frames hand i)))).
  { destruct frames as [|f fs]; [discriminate|].
    unfold findBallRelease in Hi. cbv zeta in Hi. rewrite Hs in Hi.
    apply Some_inj in Hi. unfold zrange in Hi.
    unfold releaseScore. cbv zeta.
    match type of Hi with
    | fst (fold_left (releaseStep _ ?Vx ?dE ?dT)
                     (map _ (seq 0 (Z.to_nat (?hi - ?lo + 1)))) _) = _ =>
        pose proof (release_scan A Vx dE dT lo s (Z.to_nat (hi - lo + 1)))
          as Hbest;
        assert (HVx : List.length Vx = List.length (f :: fs))
          by (now rewrite movingAvg_length, finiteDiff_length, length_map,
                    coordSeries_length);
        set (VX := Vx) in *; set (DE := dE) in *; set (DT := dT) in *
    end.
    rewrite HVx in *.
    set (lo := Z.max 1 (Z.of_nat s - 20)) in *.
    set (hi := Z.min (Z.of_nat (List.length (f :: fs)) - 2)
                     (Z.of_nat s + 20)) in *.
    match type of Hbest with
    | ScanInv _ _ _ _ _ _ _ ?x => set (st := x) in *
    end.
    clearbody st. subst i. unfold Below.
    destruct Hbest as [[-> Hall]|[d0 [Hd0 [_ [-> [Htop [Hmax Hfirst]]]]]]];
      cbn [fst snd] in *.
    - left. split; [reflexivity|]. intros j Hj.
      specialize (Hall (Z.to_nat (Z.of_nat j - lo))).
      replace (Z.to_nat (lo + Z.of_nat (Z.to_nat (Z.of_nat j - lo))))
        with j in Hall by lia.
      apply Hall; [lia|reflexivity].
    - right. unfold num_gtb in *.
      assert (Hlo : (1 <= lo)%Z) by (unfold lo; lia).
      split; [lia|]. split; [exact Htop|]. split.
      + intros j Hj. specialize (Hmax (Z.to_nat (Z.of_nat j - lo))).
        replace (Z.to_nat (lo + Z.of_nat (Z.to_nat (Z.of_nat j - lo))))
          with j in Hmax by lia.
        apply Hmax; [lia|reflexivity].
      + intros j Hj Hlt. specialize (Hfirst (Z.to_nat (Z.of_nat j - lo))).
        replace (Z.to_nat (lo + Z.of_nat (Z.to_nat (Z.of_nat j - lo))))
          with j in Hfirst by lia.
        apply Hfirst; [lia|reflexivity]. }
  split; [exact Hmain|]. intros Hst.
  pose proof (indexFromTime_stalled A frames t s Hst Hs) as Hs0.
  destruct Hmain as [[-> _]|[Hw [Htop _]]]; [exact Hs0|].
  unfold Below in Htop.
  rewrite (releaseScore_stalled A L frames hand i Hst) in Htop by lia.
  discriminate.
Qed.

(** X7 on the uneven track with a release declared at frame 10, in
    double arithmetic. *)
Lemma findBallRelease_window_witness :
  indexFromTime binary64 unevenTrack (Some (Fin (double (1 # 30))))
  = Some 10%nat
  /\ findBallRelease binary64 axisLib unevenTrack HandUnknown
       (Some (Fin (double (1 # 30)))) = Some 10%nat
  /\ (1 <= Z.of_nat 10 <= 10)%Z.
Proof.
  assert (Hs : indexFromTime binary64 unevenTrack
                 (Some (Fin (double (1 # 30)))) = Some 10%nat)
    by (vm_compute; reflexivity).
  assert (Hi : findBallRelease binary64 axisLib unevenTrack HandUnknown
                 (Some (Fin (double (1 # 30)))) = Some 10%nat)
    by (vm_compute; reflexivity).
  split; [exact Hs|]. split; [exact Hi|].
  destruct (findBallRelease_window binary64 axisLib unevenTrack HandUnknown
              (Fin (double (1 # 30))) 10 10 Hs Hi) as [[[_ Hall]|[Hw _]] _].
  - specialize (Hall 10%nat ltac:(cbn; lia)). vm_compute in Hall.
    discriminate Hall.
  - cbn in Hw. lia.
Defined.

(* ================================================================== *)
(** * Further properties: track builder *)




Lemma setKey_keys {A : Type} (k : string) (v : A) (l : list (string * A))
  (k' : string) :
  In k' (map fst (setKey k v l)) <-> k' = k \/ In k' (map fst l).
Proof.
  induction l as [|[k0 v0] r IH]; cbn [setKey map fst In].
  - intuition.
  - destruct (String.eqb k k0) eqn:E; cbn [map fst In].
    + apply String.eqb_eq in E. subst k0. intuition.
    + rewrite IH. intuition.
Qed.

Lemma setKey_NoDup {A : Type} (k : string) (v : A) (l : list (string * A)) :
  NoDup (map fst l) -> NoDup (map fst (setKey k v l)).
Proof.
  induction l as [|[k0 v0] r IH]; intros Hnd; cbn [setKey map fst].
  - constructor; [intros []|constructor].
  - inversion Hnd as [|? ? Hnotin Hnd']; subst.
    destruct (String.eqb k k0) eqn:E; cbn [map fst].
    + apply String.eqb_eq in E. subst k0. now constructor.
    + constructor; [|now apply IH].
      rewrite setKey_keys. intros [->|Hin]; [|contradiction].
      rewrite String.eqb_refl in E. discriminate.
Qed.

Lemma tripleEntries_NoDup (J : json) :
  NoDup (map fst (Parser.tripleEntries J)).
Proof.
  unfold Parser.tripleEntries.
  apply (fold_left_invariant _
           (fun out : list (string * Parser.Triple) => NoDup (map fst out))
           (Parser.entries J) []).
  - constructor.
  - intros out [k v] Hout _. destruct (Parser.isTriple v); [|exact Hout].
    unfold Parser.assign. destruct (String.eqb k "__proto__"); [exact Hout|].
    now apply setKey_NoDup.
Qed.

(** X10: in every frame of every parsed track no joint name occurs
    twice, and no joint is stored under the name [__proto__]. *)
Theorem parsed_joints_well_keyed (B : Builtins) (root : option json)
  (t : Parser.ParsedTrack) (f : Parser.Frame)
  (Ht : In t (Parser.parseHawkEyeJson B root))
  (Hf : In f (Parser.frames t)) :
  WellKeyed (Parser.joints f)
  /\ assoc "__proto__" (Parser.joints f) = None.
Proof.
  destruct (parsed_track_origin B root t Ht) as [p [_ [Hfr _]]].
  rewrite Hfr in Hf. apply buildFrames_joints in Hf.
  destruct Hf as [J ->]. split; [apply tripleEntries_NoDup|].
  unfold Parser.tripleEntries.
  apply (fold_left_invariant _
           (fun out : list (string * Parser.Triple) =>
              assoc "__proto__" out = None)
           (Parser.entries J) []).
  - reflexivity.
  - intros out [k v] Hout _. destruct (Parser.isTriple v); [|exact Hout].
    unfold Parser.assign.
    destruct (String.eqb k "__proto__") eqn:E; [exact Hout|].
    rewrite assoc_setKey_other; [exact Hout|].
    intros <-. rewrite String.eqb_refl in E. discriminate.
Qed.

(** X10 at the sample document. *)
Lemma parsed_joints_well_keyed_witness :
  In sampleTrack (Parser.parseHawkEyeJson sampleHost (Some sampleRoot))
  /\ In sampleFrame (Parser.frames sampleTrack)
  /\ WellKeyed (Parser.joints sampleFrame).
Proof.
  assert (H : In sampleTrack
                (Parser.parseHawkEyeJson sampleHost (Some sampleRoot)))
    by (vm_compute; left; reflexivity).
  assert (Hf : In sampleFrame (Parser.frames sampleTrack))
    by (left; reflexivity).
  split; [exact H|]. split; [exact Hf|].
  exact (proj1 (parsed_joints_well_keyed sampleHost (Some sampleRoot)
                  sampleTrack sampleFrame H Hf)).
Defined.



Lemma parsePerson_short (B : Builtins) (root : option json) (p : json) :
  (List.length (Parser.parsePerson B root [] p) <= 1)%nat.
Proof.
  unfold Parser.parsePerson. destruct (Nat.eqb _ 0); cbn; lia.
Qed.

Lemma parseHawkEyeJson_length (B : Builtins) (root : option json) :
  (List.length (Parser.parseHawkEyeJson B root)
   <= List.length (peopleOf root))%nat.
Proof.
  rewrite parseHawkEyeJson_flat.
  induction (peopleOf root) as [|p r IH]; [cbn; lia|].
  cbn [flat_map]. rewrite length_app. cbn [List.length].
  pose proof (parsePerson_short B root p). lia.
Qed.

(** X12: every track returned by [parseHawkEyeJson] comes from one
    person record of [samples.people], whose role, frame rate, identity
    and frames it carries; there are never more tracks than person
    records, hence none when [samples.people] is missing or is not an
    array. *)
Theorem parseHawkEyeJson_track_origin (B : Builtins) (root : option json)
  (t : Parser.ParsedTrack) (Ht : In t (Parser.parseHawkEyeJson B root)) :
  (exists person,
     In person (peopleOf root)
     /\ Parser.role t = Parser.normalizeRole B (prop (Some person) "role")
     /\ Parser.fps t = Parser.extractFPS B root (Some person)
     /\ Parser.personId t = prop (Some person) "personId"
     /\ Parser.frames t = framesOfPerson B root person)
  /\ (List.length (Parser.parseHawkEyeJson B root)
      <= List.length (peopleOf root))%nat.
Proof.
  split; [|apply parseHawkEyeJson_length].
  rewrite parseHawkEyeJson_flat in Ht.
  - apply in_flat_map in Ht. destruct Ht as [person [Hin Ht]].
    exists person. split; [exact Hin|].
    unfold Parser.parsePerson in Ht. unfold framesOfPerson.
    destruct (Nat.eqb _ 0); [destruct Ht|].
    destruct Ht as [<-|[]]. cbn. repeat split.
Qed.

(** X12 at the sample document. *)
Lemma parseHawkEyeJson_track_origin_witness :
  In sampleTrack (Parser.parseHawkEyeJson sampleHost (Some sampleRoot))
  /\ (List.length (Parser.parseHawkEyeJson sampleHost (Some sampleRoot))
      <= List.length (peopleOf (Some sampleRoot)))%nat.
Proof.
  assert (H : In sampleTrack
                (Parser.parseHawkEyeJson sampleHost (Some sampleRoot)))
    by (vm_compute; left; reflexivity).
  split; [exact H|].
  exact (proj2 (parseHawkEyeJson_track_origin sampleHost (Some sampleRoot)
                  sampleTrack H)).
Defined.

(* ================================================================== *)
(** * Further properties: display smoother *)

Lemma setKey_fresh {A : Type} (k : string) (v : A) (l : list (string * A)) :
  ~ In k (map fst l) -> setKey k v l = (l ++ [(k, v)])%list.
Proof.
  induction l as [|[k0 v0] r IH]; intros Hk; [reflexivity|].
  cbn [setKey map fst In app] in *.
  destruct (String.eqb k k0) eqn:E.
  - apply String.eqb_eq in E. subst k0. exfalso. apply Hk. now left.
  - rewrite IH; [reflexivity|]. intros H. apply Hk. now right.
Qed.

Lemma assoc_None_keys {A : Type} (k : string) (l : list (string * A)) :
  ~ In k (map fst l) -> assoc k l = None.
Proof.
  induction l as [|[k0 v0] r IH]; intros Hk; [reflexivity|].
  cbn [assoc map fst In] in *. destruct (String.eqb k k0) eqn:E.
  - apply String.eqb_eq in E. subst k0. exfalso. apply Hk. now left.
  - apply IH. intros H. apply Hk. now right.
Qed.

Lemma smooth_fold_map (l : Joints) (prev0 prev out : Joints) :
  NoDup (map fst l) ->
  (forall k, In k (map fst l) -> ~ In k (map fst out)) ->
  (forall k, In k (map fst l) -> assoc k prev = assoc k prev0) ->
  snd (fold_left smoothOrdinary l (prev, out))
  = (out ++ map (smoothedEntry prev0) l)%list.
Proof.
  revert prev out. induction l as [|[k p] r IH]; intros prev out Hnd Hout Hprev.
  - cbn. now rewrite app_nil_r.
  - inversion Hnd as [|? ? Hnotin Hnd']; subst.
    cbn [fold_left map]. unfold smoothOrdinary at 2.
    unfold smoothedEntry at 1.
    cbn [fst snd]. rewrite <- (Hprev k) by (now left).
    assert (Hfresh : ~ In k (map fst out)) by (apply Hout; now left).
    destruct (assoc k prev) as [pv|].
    + rewrite (setKey_fresh k _ out Hfresh).
      rewrite IH; [now rewrite <- app_assoc|exact Hnd'| |].
      * intros k' Hk'. rewrite map_app, in_app_iff. cbn.
        intros [H|[<-|[]]]; [|contradiction].
        apply (Hout k'); [now right|exact H].
      * intros k' Hk'. rewrite assoc_setKey_other.
        -- apply Hprev. now right.
        -- intros ->. contradiction.
    + rewrite (setKey_fresh k _ out Hfresh).
      rewrite IH; [now rewrite <- app_assoc|exact Hnd'| |].
      * intros k' Hk'. rewrite map_app, in_app_iff. cbn.
        intros [H|[<-|[]]]; [|contradiction].
        apply (Hout k'); [now right|exact H].
      * intros k' Hk'. rewrite assoc_setKey_other.
        -- apply Hprev. now right.
        -- intros ->. contradiction.
Qed.

(** X13: on a raw frame none of whose joints is named like a member of
    [Object.prototype], the smoothed frame holds exactly the joints of
    the raw frame, in the same order, each blended with its stored
    position or taken raw; stored positions of joints that the raw frame
    lacks are dropped from the state; and with no stored state the raw
    frame comes back unchanged. *)
Theorem frameJoints_whole_frame (prev rawJ : Joints) (Hwf : WellKeyed rawJ)
  (Hord : OrdinaryKeys rawJ) :
  frameJoints prev rawJ
  = Returned (map (smoothedEntry prev) rawJ, map (smoothedEntry prev) rawJ)
  /\ map fst (map (smoothedEntry prev) rawJ) = map fst rawJ
  /\ frameJoints [] rawJ = Returned (rawJ, rawJ).
Proof.
  assert (H : forall p, snd (fold_left smoothOrdinary rawJ (p, ([] : Joints)))
                        = map (smoothedEntry p) rawJ).
  { intros p. apply (smooth_fold_map rawJ p p [] Hwf).
    - intros k _ [].
    - reflexivity. }
  rewrite !frameJoints_ordinary by exact Hord. rewrite !H.
  split; [reflexivity|]. split.
  - rewrite map_map. apply map_ext. intros [k p]. reflexivity.
  - assert (E : map (smoothedEntry []) rawJ = rawJ).
    { clear. induction rawJ as [|[k p] r IH]; [reflexivity|].
      cbn [map]. rewrite IH. reflexivity. }
    now rewrite E.
Qed.

(** X13 at the sample poses: the left wrist has no stored position. *)
Lemma frameJoints_whole_frame_witness :
  WellKeyed sampleRawPose
  /\ OrdinaryKeys sampleRawPose
  /\ frameJoints samplePrevPose sampleRawPose
     = Returned (map (smoothedEntry samplePrevPose) sampleRawPose,
                 map (smoothedEntry samplePrevPose) sampleRawPose)
  /\ frameJoints [] sampleRawPose = Returned (sampleRawPose, sampleRawPose).
Proof.
  assert (Hwf : WellKeyed sampleRawPose).
  { unfold WellKeyed, sampleRawPose. cbn [map fst].
    repeat constructor; simpl; intuition discriminate. }
  assert (Hord : OrdinaryKeys sampleRawPose).
  { intros k [<-|[<-|[]]]; reflexivity. }
  split; [exact Hwf|]. split; [exact Hord|].
  destruct (frameJoints_whole_frame samplePrevPose sampleRawPose Hwf Hord)
    as [H1 [_ H3]].
  split; [exact H1|exact H3].
Defined.

(* ================================================================== *)
(** * Further properties: per-frame kinematics *)

Section KinematicsFacts.
Variable M : MathLib.

Lemma metrics_more_fields (bodyHeight : option Q) (flipHome : bool)
  (prev : option Q) (J : Joints) :
  let m := fst (metrics M bodyHeight flipHome prev J) in
  hipRotDeg m
  = match lHipOf J, rHipOf J with
    | Some l, Some r => Some (yawDeg M (homeVecOf flipHome) (vsub r l))
    | _, _ => None
    end
  /\ hipMinusTrunk m
     = match hipRotDeg m, trunkRotDeg m with
       | Some h, Some t => Some (wrap180 (h - t))
       | _, _ => None
       end
  /\ lAbd m
     = abduction M (lShoulderOf J) (lElbowOf J)
                 (trunkUp M (pelvisOf J) (chestOf J))
  /\ stride m
     = match lAnkleOf J, rAnkleOf J with
       | Some l, Some r => Some (distanceTo M l r)
       | _, _ => None
       end
  /\ linDispHome m
     = match trunkCoG (pelvisOf J) (chestOf J) (rShoulderOf J)
                      (lShoulderOf J),
             match lHipOf J, rHipOf J with
             | Some l, Some r => Some (midpoint l r)
             | _, _ => None
             end with
       | Some t, Some h => Some (c0 h - c0 t)
       | _, _ => None
       end.
Proof.
  unfold metrics. destruct (trunkRotation M flipHome prev J).
  cbn [fst hipRotDeg hipMinusTrunk lAbd stride linDispHome trunkRotDeg].
  repeat split.
Qed.



End KinematicsFacts.


(** X15: each derived value is unavailable exactly when one of its
    joints is: trunk rotation needs both shoulders, hip rotation and the
    displacement toward home both hips, the separation both of the two
    rotations, a knee flexion the hip, knee and ankle of its side, and
    the stride both ankles. *)
Theorem metrics_availability (M : MathLib) (bodyHeight : option Q)
  (flipHome : bool) (prev : option Q) (J : Joints) :
  let m := fst (metrics M bodyHeight flipHome prev J) in
  (trunkRotDeg m = None <-> lShoulderOf J = None \/ rShoulderOf J = None)
  /\ (hipRotDeg m = None <-> lHipOf J = None \/ rHipOf J = None)
  /\ (hipMinusTrunk m = None
      <-> hipRotDeg m = None \/ trunkRotDeg m = None)
  /\ (lKneeFlex m = None
      <-> lHipOf J = None \/ lKneeOf J = None \/ lAnkleOf J = None)
  /\ (rKneeFlex m = None
      <-> rHipOf J = None \/ rKneeOf J = None \/ rAnkleOf J = None)
  /\ (stride m = None <-> lAnkleOf J = None \/ rAnkleOf J = None)
  /\ (linDispHome m = None <-> lHipOf J = None \/ rHipOf J = None).
Proof.
  cbv zeta.
  destruct (metrics_fields M bodyHeight flipHome prev J)
    as [HlK [HrK _]].
  destruct (metrics_more_fields M bodyHeight flipHome prev J)
    as [Hh [Hhm [_ [Hst Hld]]]].
  destruct (metrics_trunk M flipHome bodyHeight prev J) as [Ht _].
  cbv zeta in *. rewrite Hhm, HlK, HrK, Hst, Hld, Hh, Ht. clear.
  unfold trunkRotation, rawTrunkYaw, kneeFlex, pelvisOf, trunkCoG, orMidpoint.
  destruct (lShoulderOf J), (rShoulderOf J), (lHipOf J), (rHipOf J),
    (lKneeOf J), (rKneeOf J), (lAnkleOf J), (rAnkleOf J),
    (pelvisRawOf J), (chestOf J);
    cbn; repeat split; intros; try discriminate; try tauto;
    try (left; reflexivity); try (right; reflexivity);
    intuition discriminate.
Qed.

(* ================================================================== *)
(** * Further properties: pitch metrics *)

Section PitchMetricFacts.
Variable B : Builtins.




End PitchMetricFacts.



(* ================================================================== *)
(** * Further properties: series and stored joints *)




Lemma triple_fold_other (es : list (string * json))
  (out : list (string * Parser.Triple)) (k : string) :
  ~ In k (map fst es) ->
  assoc k
    (fold_left
       (fun out kv =>
          let '(k, v) := kv in
          if Parser.isTriple v
          then Parser.assign out k
                 [Parser.elem v 0; Parser.elem v 1; Parser.elem v 2]
          else out)
       es out)
  = assoc k out.
Proof.
  revert out. induction es as [|[k0 v0] r IH]; intros out Hk; [reflexivity|].
  cbn [fold_left]. cbn [map fst In] in Hk.
  rewrite IH by (intros H; apply Hk; now right).
  destruct (Parser.isTriple v0); [|reflexivity].
  unfold Parser.assign. destruct (String.eqb k0 "__proto__"); [reflexivity|].
  apply assoc_setKey_other. intros ->. apply Hk. now left.
Qed.

Lemma triple_fold_lookup (es : list (string * json))
  (out : list (string * Parser.Triple)) (k : string) (v : json) :
  NoDup (map fst es) -> assoc k es = Some v -> k <> "__proto__" ->
  assoc k
    (fold_left
       (fun out kv =>
          let '(k, v) := kv in
          if Parser.isTriple v
          then Parser.assign out k
                 [Parser.elem v 0; Parser.elem v 1; Parser.elem v 2]
          else out)
       es out)
  = if Parser.isTriple v
    then Some [Parser.elem v 0; Parser.elem v 1; Parser.elem v 2]
    else assoc k out.
Proof.
  revert out. induction es as [|[k0 v0] r IH]; intros out Hnd Hk Hp;
    [discriminate|].
  inversion Hnd as [|? ? Hnotin Hnd']; subst.
  cbn [fold_left]. cbn [assoc] in Hk.
  destruct (String.eqb k k0) eqn:E.
  - apply String.eqb_eq in E. subst k0. apply Some_inj in Hk. subst v0.
    rewrite triple_fold_other by exact Hnotin.
    destruct (Parser.isTriple v); [|reflexivity].
    unfold Parser.assign.
    destruct (String.eqb k "__proto__") eqn:Ep;
      [apply String.eqb_eq in Ep; contradiction|].
    apply assoc_setKey_same.
  - rewrite IH by assumption.
    destruct (Parser.isTriple v); [reflexivity|].
    destruct (Parser.isTriple v0); [|reflexivity].
    unfold Parser.assign. destruct (String.eqb k0 "__proto__"); [reflexivity|].
    apply assoc_setKey_other. intros ->.
    rewrite String.eqb_refl in E. discriminate.
Qed.

(** X18: from a raw frame object without repeated keys, a joint is
    stored exactly when its value is a length-3 array of finite numbers,
    and then as those three numbers; a joint with any other value, and a
    name the raw frame lacks, are absent from the stored frame. *)
Theorem tripleEntries_lookup (l : list (string * json)) (k : string)
  (Hwf : WellKeyed l) (Hp : k <> "__proto__") :
  assoc k (Parser.tripleEntries (JObj l))
  = match assoc k l with
    | Some v =>
        if Parser.isTriple v
        then Some [Parser.elem v 0; Parser.elem v 1; Parser.elem v 2]
        else None
    | None => None
    end.
Proof.
  unfold Parser.tripleEntries. cbn [Parser.entries].
  destruct (assoc k l) as [v|] eqn:E.
  - rewrite (triple_fold_lookup l [] k v Hwf E Hp). reflexivity.
  - apply triple_fold_other. intros Hin.
    apply in_map_iff in Hin. destruct Hin as [[k' v'] [Hk Hin]].
    cbn in Hk. subst k'.
    clear Hwf. induction l as [|[k0 v0] r IH]; [destruct Hin|].
    cbn [assoc] in E. destruct (String.eqb k k0) eqn:Ek; [discriminate|].
    destruct Hin as [H|H].
    + injection H as -> _. rewrite String.eqb_refl in Ek. discriminate.
    + now apply IH.
Qed.

(** X18 at the raw frame of the sample person: the right wrist is
    stored, the left wrist with its infinite component is not. *)
Lemma tripleEntries_lookup_witness :
  assoc "rWrist"
    (Parser.tripleEntries
       (JObj [("rWrist", num3 1 2 3);
              ("lWrist", JArr [JNum (Fin 1); JNum PosInf; JNum (Fin 3)])]))
  = Some [Some (JNum (Fin 1)); Some (JNum (Fin 2)); Some (JNum (Fin 3))]
  /\ assoc "lWrist"
       (Parser.tripleEntries
          (JObj [("rWrist", num3 1 2 3);
                 ("lWrist", JArr [JNum (Fin 1); JNum PosInf; JNum (Fin 3)])]))
     = None.
Proof.
  assert (Hwf : WellKeyed
                  [("rWrist", num3 1 2 3);
                   ("lWrist", JArr [JNum (Fin 1); JNum PosInf; JNum (Fin 3)])]).
  { unfold WellKeyed. cbn [map fst].
    repeat constructor; simpl; intuition discriminate. }
  split.
  - rewrite (tripleEntries_lookup _ "rWrist" Hwf) by discriminate.
    reflexivity.
  - rewrite (tripleEntries_lookup _ "lWrist" Hwf) by discriminate.
    reflexivity.
Defined.
